(** * Split tunneling view: a shallow embedding

    Model of [client/web/app/split_tunneling.cordova.ts]: the two
    data-access functions over the Cordova plugin bridge
    ([getInstalledApps], [setAllowedApps]) and the Lit component
    [SplitTunnelingView] (connection, rendering, search, toggling and the
    debounced push of the selection).

    Conventions.
    - A JavaScript string is a [string], the sequence of its code units; a
      [Set<string>] is the list of its members in insertion order (what
      iterating the set yields).
    - A promise that has settled is an [Outcome]; a synchronous completion
      (value or thrown error) uses the same type.
    - An [async] function is cut at its [await]: the part that runs up to
      the [await] is one definition, the part that runs once the awaited
      promise has settled is a second one that receives the [Outcome].
    - The host (clock, timers, bridge calls in flight, emitted effects) is
      explicit state; the user and the native side drive it through
      [Input]s. *)

From Stdlib Require Import ZArith NArith Sorting.Sorted.
From stdpp Require Import base decidable option list sets gmap strings sorting.

Local Open Scope Z_scope.

(** ** Outcomes of promises and of synchronous evaluation *)

Inductive JsError : Type :=
| NativeError (detail : string)    (* the bridge's failure callback *)
| SyntaxError (detail : string).   (* thrown by JSON.parse *)

Inductive Outcome (A : Type) : Type :=
| Fulfilled (a : A)
| Rejected (e : JsError).

Arguments Fulfilled {A} a.
Arguments Rejected {A} e.

(** ** Data *)

Record AppInfo : Type := mkAppInfo {
  packageName : string;
  label : string
}.

#[global] Instance JsError_eq_dec : EqDecision JsError.
Proof. solve_decision. Defined.

#[global] Instance AppInfo_eq_dec : EqDecision AppInfo.
Proof. solve_decision. Defined.

(** ** JavaScript built-ins the file relies on

    [String.prototype.toLowerCase], [String.prototype.localeCompare] and
    [JSON.parse] belong to the engine, not to the repository.  They are
    taken as an interface; [JSON_parse] is given at the result type the
    source declares for it ([AppInfo[]]) and throws on malformed text. *)

Class Builtins : Type := {
  toLowerCase : string -> string;
  localeCompare : string -> string -> Z;
  JSON_parse : string -> Outcome (list AppInfo)
}.

(** The properties of the built-ins that the results below depend on. *)

(** Lower-casing never produces or consumes the empty string. *)
Definition lower_keeps_empty `{Builtins} : Prop :=
  forall s : string, toLowerCase s = EmptyString <-> s = EmptyString.

(** [localeCompare] is a consistent comparator: its non-positive results
    form a total preorder. *)
Definition collation_total `{Builtins} : Prop :=
  forall a b : string, localeCompare a b <= 0 \/ localeCompare b a <= 0.

Definition collation_trans `{Builtins} : Prop :=
  forall a b c : string,
    localeCompare a b <= 0 -> localeCompare b c <= 0 -> localeCompare a c <= 0.

(** ** [Set<string>] in insertion order *)

Module JsSet.

Definition t : Type := list string.

Definition empty : t := [].

Definition has (x : string) (s : t) : bool := bool_decide (x ∈ s).

(** [add] appends a value that is not yet a member. *)
Definition add (x : string) (s : t) : t :=
  if has x s then s else s ++ [x].

Definition delete (x : string) (s : t) : t :=
  filter (λ y, y ≠ x) s.

(** [new Set(iterable)]: the members are added one by one. *)
Definition from_iter (l : list string) : t :=
  foldl (λ s x, add x s) empty l.

(** [[...s]] *)
Definition elements (s : t) : list string := s.

Definition size (s : t) : nat := length s.

(** The mathematical set a [Set] object denotes. *)
Definition members (s : t) : gset string := list_to_set s.

End JsSet.

(** ** String search *)

(** [startsWith] *)
Fixpoint starts_with (s q : string) : bool :=
  match q, s with
  | EmptyString, _ => true
  | String c q', String d s' => bool_decide (c = d) && starts_with s' q'
  | String _ _, EmptyString => false
  end.

(** [s.includes(q)]: [q] occurs in [s] at some position. *)
Fixpoint includes (s q : string) : bool :=
  starts_with s q ||
  match s with
  | EmptyString => false
  | String _ s' => includes s' q
  end.

(** [q] is a contiguous part of [s]. *)
Definition occurs_in (q s : string) : Prop :=
  exists pre post : string, s = pre +:+ q +:+ post.

(** A non-empty string is truthy. *)
Definition truthy_string (s : string) : bool :=
  negb (bool_decide (s = EmptyString)).

(** ** Component and host state *)

(** The two public properties of the element. *)
Record Props : Type := mkProps {
  localize : string -> string;
  initialSelectedApps : list string
}.

(** The private reactive state and the timer handle.  A timer handle is
    [None] for [null], otherwise the number [setTimeout] returned. *)
Record View : Type := mkView {
  apps : list AppInfo;
  selectedApps : JsSet.t;
  searchQuery : string;
  loading : bool;
  applyDebounceTimer : option N
}.

(** What an [await] on a bridge promise resumes. *)
Inductive Kont : Type :=
| KConnected                          (* connectedCallback, awaiting the app list *)
| KDebounced (packages : list string). (* the timer callback, awaiting the push *)

(** Everything observable outside the component. *)
Inductive Effect : Type :=
| EPluginExec (call : N) (method : string) (args : list (list string))
| EConsoleError (message : string) (e : JsError)
| EDispatch (type : string) (bubbles composed : bool) (packages : list string)
| ESetTimeout (handle delay : N)
| EClearTimeout (handle : N)
| EUnhandledRejection (e : JsError).

#[global] Instance Effect_eq_dec : EqDecision Effect.
Proof. solve_decision. Defined.

(** The host: a millisecond clock, the armed timers (handle, due time), the
    bridge promises that have not settled yet, and the effects so far. *)
Record Sys : Type := mkSys {
  props : Props;
  view : View;
  clock : N;
  timers : list (N * N);
  next_timer : N;
  awaiting : gmap N Kont;
  next_call : N;
  trace : list Effect
}.

Definition initial_view : View :=
  {| apps := []; selectedApps := JsSet.empty; searchQuery := EmptyString;
     loading := true; applyDebounceTimer := None |}.

(** A freshly constructed element in a fresh host.  Timer handles are
    positive integers. *)
Definition init (p : Props) : Sys :=
  {| props := p; view := initial_view; clock := 0%N; timers := [];
     next_timer := 1%N; awaiting := ∅; next_call := 0%N; trace := [] |}.

Definition with_view (f : View -> View) (s : Sys) : Sys :=
  {| props := props s; view := f (view s); clock := clock s;
     timers := timers s; next_timer := next_timer s;
     awaiting := awaiting s; next_call := next_call s; trace := trace s |}.

Definition emit (e : Effect) (s : Sys) : Sys :=
  {| props := props s; view := view s; clock := clock s;
     timers := timers s; next_timer := next_timer s;
     awaiting := awaiting s; next_call := next_call s;
     trace := trace s ++ [e] |}.

Definition with_timers (f : list (N * N) -> list (N * N)) (s : Sys) : Sys :=
  {| props := props s; view := view s; clock := clock s;
     timers := f (timers s); next_timer := next_timer s;
     awaiting := awaiting s; next_call := next_call s; trace := trace s |}.

Definition with_awaiting (f : gmap N Kont -> gmap N Kont) (s : Sys) : Sys :=
  {| props := props s; view := view s; clock := clock s;
     timers := timers s; next_timer := next_timer s;
     awaiting := f (awaiting s); next_call := next_call s; trace := trace s |}.

Definition set_apps (a : list AppInfo) (v : View) : View :=
  {| apps := a; selectedApps := selectedApps v; searchQuery := searchQuery v;
     loading := loading v; applyDebounceTimer := applyDebounceTimer v |}.

Definition set_selectedApps (x : JsSet.t) (v : View) : View :=
  {| apps := apps v; selectedApps := x; searchQuery := searchQuery v;
     loading := loading v; applyDebounceTimer := applyDebounceTimer v |}.

Definition set_searchQuery (q : string) (v : View) : View :=
  {| apps := apps v; selectedApps := selectedApps v; searchQuery := q;
     loading := loading v; applyDebounceTimer := applyDebounceTimer v |}.

Definition set_loading (b : bool) (v : View) : View :=
  {| apps := apps v; selectedApps := selectedApps v;
     searchQuery := searchQuery v; loading := b;
     applyDebounceTimer := applyDebounceTimer v |}.

Definition set_applyDebounceTimer (h : option N) (v : View) : View :=
  {| apps := apps v; selectedApps := selectedApps v;
     searchQuery := searchQuery v; loading := loading v;
     applyDebounceTimer := h |}.

(** ** Handlers as state transformers that may throw *)

Definition M (A : Type) : Type := Sys -> Outcome A * Sys.

#[global] Instance M_ret : MRet M := λ A a s, (Fulfilled a, s).

#[global] Instance M_bind : MBind M := λ A B f m s,
  match m s with
  | (Fulfilled a, s') => f a s'
  | (Rejected e, s') => (Rejected e, s')
  end.

Definition gets {A : Type} (f : Sys -> A) : M A := λ s, (Fulfilled (f s), s).

Definition modify (f : Sys -> Sys) : M unit := λ s, (Fulfilled tt, f s).

(** [await] on a settled promise: its value, or its reason thrown. *)
Definition await {A : Type} (r : Outcome A) : M A := λ s, (r, s).

(** [try { body } catch (e) { handler e }] *)
Definition try_catch {A : Type} (body : M A) (handler : JsError -> M A) : M A :=
  λ s, match body s with
       | (Fulfilled a, s') => (Fulfilled a, s')
       | (Rejected e, s') => handler e s'
       end.

Definition console_error (message : string) (e : JsError) : M unit :=
  modify (emit (EConsoleError message e)).

(** [setTimeout(callback, delay)] arms a timer and returns its handle.  The
    component passes one callback only, so the timer table keeps the handle
    and the due time. *)
Definition setTimeout (delay : N) : M N := λ s,
  let h := next_timer s in
  (Fulfilled h,
   emit (ESetTimeout h delay)
     {| props := props s; view := view s; clock := clock s;
        timers := timers s ++ [(h, (clock s + delay)%N)];
        next_timer := (h + 1)%N;
        awaiting := awaiting s; next_call := next_call s;
        trace := trace s |}).

(** [clearTimeout(handle)] disarms the timer if it is still armed. *)
Definition clearTimeout (h : N) : M unit :=
  modify (λ s, emit (EClearTimeout h)
                 (with_timers (filter (λ t, t.1 ≠ h)) s)).

(** Modelled from the spec: [pluginExec] of [plugin.cordova], which is not
    among the sources; the spec describes it as a function that marshals a
    method name and arguments to native code and returns a promise of a
    string or void, which fails on a native-side error.
    [pluginExec(method, ...args)] hands the call to the native side and
    returns a promise, identified here by a call number; the native side
    settles it later ([LoadSettles], [PushSettles] below). *)
Definition pluginExec (method : string) (args : list (list string)) : M N := λ s,
  let c := next_call s in
  (Fulfilled c,
   emit (EPluginExec c method args)
     {| props := props s; view := view s; clock := clock s;
        timers := timers s; next_timer := next_timer s;
        awaiting := awaiting s; next_call := (c + 1)%N;
        trace := trace s |}).

(** The running [async] function stops at its [await] on promise [c]. *)
Definition suspend (c : N) (k : Kont) : M unit :=
  modify (with_awaiting (insert c k)).

(** [dispatchEvent(new CustomEvent(type, {bubbles, composed, detail: {packages}}))] *)
Definition dispatchEvent (type : string) (bubbles composed : bool)
    (packages : list string) : M unit :=
  modify (emit (EDispatch type bubbles composed packages)).

(** ** [Array.prototype.sort]

    With a consistent comparator the language fixes the result: the elements
    in ascending order, equal ones in their original order.  It is computed
    here by insertion. *)

Fixpoint sort_insert {A : Type} (cmp : A -> A -> Z) (x : A) (l : list A) : list A :=
  match l with
  | [] => [x]
  | y :: l' => if Z.leb (cmp x y) 0 then x :: y :: l' else y :: sort_insert cmp x l'
  end.

Fixpoint array_sort {A : Type} (cmp : A -> A -> Z) (l : list A) : list A :=
  match l with
  | [] => []
  | x :: l' => sort_insert cmp x (array_sort cmp l')
  end.

(** ** The data-access functions *)

(** [getInstalledApps], up to its [await]. *)
Definition getInstalledApps : M N :=
  pluginExec "getInstalledApps" [].

(** [getInstalledApps], from the settled bridge promise to its own result. *)
Definition getInstalledApps_resume `{Builtins} (r : Outcome string)
    : Outcome (list AppInfo) :=
  match r with
  | Fulfilled result => JSON_parse result
  | Rejected e => Rejected e
  end.

(** [setAllowedApps(packages)] returns the bridge promise itself. *)
Definition setAllowedApps (packages : list string) : M N :=
  pluginExec "setAllowedApps" [packages].

Definition setAllowedApps_resume (r : Outcome unit) : Outcome unit := r.

(** ** The component *)

(** [(a, b) => a.label.localeCompare(b.label)] *)
Definition by_label `{Builtins} (a b : AppInfo) : Z :=
  localeCompare (label a) (label b).

(** [connectedCallback], up to its [await].  [super.connectedCallback()] is
    LitElement's own bookkeeping and touches none of the modelled state. *)
Definition connectedCallback : M unit :=
  initial ← gets (λ s, initialSelectedApps (props s));
  modify (with_view (set_selectedApps (JsSet.from_iter initial)));;
  c ← getInstalledApps;
  suspend c KConnected.

(** [connectedCallback], once the bridge promise has settled with [r]. *)
Definition connectedCallback_resume `{Builtins} (r : Outcome string) : M unit :=
  try_catch
    (loaded ← await (getInstalledApps_resume r);
     modify (with_view (set_apps loaded));;
     current ← gets (λ s, apps (view s));
     modify (with_view (set_apps (array_sort by_label current))))
    (λ e,
     console_error "Failed to load installed apps:" e;;
     modify (with_view (set_apps [])));;
  modify (with_view (set_loading false)).

(** [onSearchInput] with the text of the input field. *)
Definition onSearchInput (value : string) : M unit :=
  modify (with_view (set_searchQuery value)).

(** The handle [if (this.applyDebounceTimer)] lets through: [null] and [0]
    are falsy. *)
Definition truthy_handle (h : option N) : option N :=
  match h with
  | None => None
  | Some n => if N.eqb n 0 then None else Some n
  end.

(** The timer callback, up to its [await]. *)
Definition debounce_callback : M unit :=
  packages ← gets (λ s, JsSet.elements (selectedApps (view s)));
  c ← setAllowedApps packages;
  suspend c (KDebounced packages).

(** The timer callback, once the push has settled with [r]. *)
Definition debounce_resume (packages : list string) (r : Outcome unit) : M unit :=
  try_catch
    (await (setAllowedApps_resume r))
    (λ e, console_error "Failed to set allowed apps:" e);;
  dispatchEvent "AllowedAppsChanged" true true packages.

Definition applyChanges : M unit :=
  h ← gets (λ s, applyDebounceTimer (view s));
  match truthy_handle h with
  | Some n => clearTimeout n
  | None => mret tt
  end;;
  h' ← setTimeout 500;
  modify (with_view (set_applyDebounceTimer (Some h'))).

(** The selection after a click on [p], from the selection before it. *)
Definition toggled (p : string) (selected : JsSet.t) : JsSet.t :=
  let newSet := JsSet.from_iter (JsSet.elements selected) in
  if JsSet.has p newSet then JsSet.delete p newSet else JsSet.add p newSet.

Definition toggleApp (p : string) : M unit :=
  selected ← gets (λ s, selectedApps (view s));
  modify (with_view (set_selectedApps (toggled p selected)));;
  applyChanges.

(** *** Rendering *)

Record ListItem : Type := mkListItem {
  item_app : AppInfo;       (* label and package name shown; a click toggles
                               [packageName item_app] *)
  item_checked : bool
}.

Inductive Html : Type :=
| LoadingPage
| ListPage (search_label search_value hint : string) (count : nat)
           (items : list ListItem).

Definition matches_query `{Builtins} (query : string) (app : AppInfo) : bool :=
  includes (toLowerCase (label app)) query ||
  includes (toLowerCase (packageName app)) query.

Definition filteredApps `{Builtins} (v : View) : list AppInfo :=
  let query := toLowerCase (searchQuery v) in
  if truthy_string query
  then List.filter (matches_query query) (apps v)
  else apps v.

Definition render `{Builtins} (p : Props) (v : View) : Html :=
  if loading v then LoadingPage
  else
    ListPage
      (localize p "split-tunneling-search-placeholder")
      (searchQuery v)
      (if Nat.eqb (JsSet.size (selectedApps v)) 0
       then localize p "split-tunneling-hint-none"
       else localize p "split-tunneling-hint-selected")
      (JsSet.size (selectedApps v))
      (map (λ app, {| item_app := app;
                      item_checked := JsSet.has (packageName app) (selectedApps v) |})
           (filteredApps v)).

(** The apps of the list a page shows, if it shows one. *)
Definition rendered_apps (h : Html) : option (list AppInfo) :=
  match h with
  | LoadingPage => None
  | ListPage _ _ _ _ items => Some (map item_app items)
  end.

(** ** The event loop *)

Inductive Input : Type :=
| Connect                                     (* the element is attached *)
| SearchInput (value : string)                (* typing in the search field *)
| Click (packageName : string)                (* a click on a list item *)
| Elapse (ms : N)                             (* time passes *)
| LoadSettles (call : N) (r : Outcome string) (* the native side answers *)
| PushSettles (call : N) (r : Outcome unit).

(** Run a handler whose returned promise nobody observes. *)
Definition exec (m : M unit) (s : Sys) : Sys :=
  match m s with
  | (Fulfilled _, s') => s'
  | (Rejected e, s') => emit (EUnhandledRejection e) s'
  end.

Definition is_due (now : N) (t : N * N) : Prop := (t.2 <= now)%N.

#[global] Instance is_due_dec now t : Decision (is_due now t).
Proof. unfold is_due. apply _. Defined.

Fixpoint fire_all (due : list (N * N)) (s : Sys) : Sys :=
  match due with
  | [] => s
  | _ :: due' => fire_all due' (exec debounce_callback s)
  end.

(** The clock advances by [ms]; the timers that have come due are disarmed
    and their callbacks run, oldest first. *)
Definition elapse (ms : N) (s : Sys) : Sys :=
  let now := (clock s + ms)%N in
  let due := filter (is_due now) (timers s) in
  fire_all due
    {| props := props s; view := view s; clock := now;
       timers := filter (λ t, ¬ is_due now t) (timers s);
       next_timer := next_timer s; awaiting := awaiting s;
       next_call := next_call s; trace := trace s |}.

Definition step `{Builtins} (i : Input) (s : Sys) : Sys :=
  match i with
  | Connect => exec connectedCallback s
  | SearchInput value => exec (onSearchInput value) s
  | Click p => exec (toggleApp p) s
  | Elapse ms => elapse ms s
  | LoadSettles c r =>
      match awaiting s !! c with
      | Some KConnected =>
          exec (connectedCallback_resume r) (with_awaiting (delete c) s)
      | _ => s
      end
  | PushSettles c r =>
      match awaiting s !! c with
      | Some (KDebounced packages) =>
          exec (debounce_resume packages r) (with_awaiting (delete c) s)
      | _ => s
      end
  end.

Definition run `{Builtins} (inputs : list Input) (s : Sys) : Sys :=
  foldl (λ s i, step i s) s inputs.

(** The package lists pushed to the native side, oldest first. *)
Definition push_of (e : Effect) : option (list string) :=
  match e with
  | EPluginExec _ method [packages] =>
      if bool_decide (method = "setAllowedApps") then Some packages else None
  | _ => None
  end.

Definition pushes (t : list Effect) : list (list string) := omap push_of t.

(** The package lists announced by [AllowedAppsChanged], oldest first. *)
Definition announcement_of (e : Effect) : option (list string) :=
  match e with
  | EDispatch type _ _ packages =>
      if bool_decide (type = "AllowedAppsChanged") then Some packages else None
  | _ => None
  end.

Definition announced (t : list Effect) : list (list string) :=
  omap announcement_of t.

(** The selection after a series of clicks. *)
Definition toggled_all (ps : list string) (selected : JsSet.t) : JsSet.t :=
  foldl (λ sel p, toggled p sel) selected ps.

(** A burst of clicks: a first click, then further clicks, each after the
    given pause. *)
Definition burst (p0 : string) (rest : list (N * string)) : list Input :=
  Click p0 :: flat_map (λ gp, [Elapse gp.1; Click gp.2]) rest.

Definition burst_packages (p0 : string) (rest : list (N * string)) : list string :=
  p0 :: map snd rest.

(** ** A concrete engine, for running the model

    ASCII lower-casing, comparison by character code, and a parser that
    knows two texts. *)

Module Demo.

Definition lower_ascii (c : Ascii.ascii) : Ascii.ascii :=
  let n := Ascii.N_of_ascii c in
  if (65 <=? n)%N && (n <=? 90)%N then Ascii.ascii_of_N (n + 32) else c.

Fixpoint lower (s : string) : string :=
  match s with
  | EmptyString => EmptyString
  | String c s' => String (lower_ascii c) (lower s')
  end.

Definition compare_codes (a b : string) : Z :=
  match String.compare a b with
  | Lt => -1
  | Eq => 0
  | Gt => 1
  end.

Definition quote : string := String (Ascii.ascii_of_nat 34) EmptyString.

Definition json_app (pkg lbl : string) : string :=
  "{" +:+ quote +:+ "packageName" +:+ quote +:+ ":" +:+ quote +:+ pkg +:+ quote +:+
  "," +:+ quote +:+ "label" +:+ quote +:+ ":" +:+ quote +:+ lbl +:+ quote +:+ "}".

Definition maps : AppInfo := {| packageName := "org.maps"; label := "Maps" |}.
Definition browser : AppInfo := {| packageName := "org.browser"; label := "Browser" |}.
Definition mail : AppInfo := {| packageName := "com.mail"; label := "Mail" |}.

Definition installed_text : string :=
  "[" +:+ json_app "org.maps" "Maps" +:+ "," +:+ json_app "org.browser" "Browser"
      +:+ "," +:+ json_app "com.mail" "Mail" +:+ "]".

Definition parse (text : string) : Outcome (list AppInfo) :=
  if bool_decide (text = "[]") then Fulfilled []
  else if bool_decide (text = installed_text) then Fulfilled [maps; browser; mail]
  else Rejected (SyntaxError text).

Definition engine : Builtins :=
  {| toLowerCase := lower; localeCompare := compare_codes; JSON_parse := parse |}.

Definition element : Props :=
  {| localize := λ key, key; initialSelectedApps := ["org.maps"] |}.

(** A view after a load, with a search text typed in. *)
Definition listed_view : View :=
  {| apps := [browser; mail; maps];
     selectedApps := ["org.maps"];
     searchQuery := "MA";
     loading := false;
     applyDebounceTimer := None |}.

(** The element is attached and the native side answers with three apps. *)
Definition connected : Sys :=
  @run engine [Connect; LoadSettles 0 (Fulfilled installed_text)] (init element).

End Demo.

(** ** Auxiliary notions used in the statements and proofs *)

Section Auxiliary.
Context `{Builtins}.

(** The timers left armed by [applyChanges], and the effects it emits. *)
Definition rearmed (s : Sys) : list (N * N) :=
  match truthy_handle (applyDebounceTimer (view s)) with
  | Some n => filter (λ t, t.1 ≠ n) (timers s)
  | None => timers s
  end ++ [(next_timer s, (clock s + 500)%N)].

Definition rearm_effects (s : Sys) : list Effect :=
  match truthy_handle (applyDebounceTimer (view s)) with
  | Some n => [EClearTimeout n]
  | None => []
  end ++ [ESetTimeout (next_timer s) 500].

(** Effects of the two resumptions. *)
Definition caught (message : string) {A : Type} (r : Outcome A) : list Effect :=
  match r with
  | Fulfilled _ => []
  | Rejected e => [EConsoleError message e]
  end.

(** The app list [connectedCallback] ends with. *)
Definition loaded_apps (r : Outcome string) : list AppInfo :=
  match getInstalledApps_resume r with
  | Fulfilled l => array_sort by_label l
  | Rejected _ => []
  end.

(** The state after [ms] milliseconds in which the armed timers become [ts]. *)
Definition advanced (ms : N) (ts : list (N * N)) (s : Sys) : Sys :=
  {| props := props s; view := view s; clock := (clock s + ms)%N;
     timers := ts; next_timer := next_timer s; awaiting := awaiting s;
     next_call := next_call s; trace := trace s |}.

(** At most one timer is armed; it is the one the component holds the
    handle of, and it is not due yet.  Handles are never [0]. *)
Definition timer_inv (s : Sys) : Prop :=
  (0 < next_timer s)%N ∧
  match timers s with
  | [] => ∀ h, applyDebounceTimer (view s) = Some h → (0 < h)%N
  | [(h, due)] =>
      applyDebounceTimer (view s) = Some h ∧ (0 < h)%N ∧ (clock s < due)%N
  | _ => False
  end.

(** Nothing was pushed or announced, and no bridge call was started,
    between [s] and [s']. *)
Definition quiet (s s' : Sys) : Prop :=
  pushes (trace s') = pushes (trace s) ∧
  announced (trace s') = announced (trace s) ∧
  next_call s' = next_call s ∧
  awaiting s' = awaiting s.

(** The debounce timer was armed just now. *)
Definition armed (s : Sys) : Prop :=
  timer_inv s ∧ timers s = [(next_timer s - 1, clock s + 500)%N].

(** The push [c] is in flight with the package list [packages]. *)
Definition in_flight (c : N) (packages : list string) (s : Sys) : Prop :=
  awaiting s !! c = Some (KDebounced packages) ∧ (c < next_call s)%N.

(** [s] contains [q] when case is ignored. *)
Definition contains_ci (q s : string) : Prop :=
  occurs_in (toLowerCase q) (toLowerCase s).

(** The app matches the search text [q]. *)
Definition shows_app (q : string) (app : AppInfo) : Prop :=
  contains_ci q (label app) ∨ contains_ci q (packageName app).

(** [a] comes no later than [b] in the order of the labels. *)
Definition label_le (a b : AppInfo) : Prop :=
  localeCompare (label a) (label b) <= 0.

End Auxiliary.

(** ** The transitions of the event loop, one shape per handler run *)

Section Transitions.
Context `{Builtins}.

(** [step i s = s'], spelled out: which handler ran and the state it left.
    The shapes of a click and of a wait are those of a state that satisfies
    [timer_inv]. *)
Inductive Trans (i : Input) (s s' : Sys) : Prop :=
| T_ignored :
    (∃ c r, i = LoadSettles c r) ∨ (∃ c r, i = PushSettles c r) →
    s' = s →
    Trans i s s'
| T_connect :
    i = Connect →
    s' = {| props := props s;
            view := set_selectedApps (JsSet.from_iter (initialSelectedApps (props s)))
                      (view s);
            clock := clock s; timers := timers s; next_timer := next_timer s;
            awaiting := <[next_call s := KConnected]> (awaiting s);
            next_call := (next_call s + 1)%N;
            trace := trace s ++ [EPluginExec (next_call s) "getInstalledApps" []] |} →
    Trans i s s'
| T_search (value : string) :
    i = SearchInput value →
    s' = with_view (set_searchQuery value) s →
    Trans i s s'
| T_click (p : string) :
    i = Click p →
    s' = {| props := props s;
            view := set_applyDebounceTimer (Some (next_timer s))
                      (set_selectedApps (toggled p (selectedApps (view s))) (view s));
            clock := clock s;
            timers := [(next_timer s, (clock s + 500)%N)];
            next_timer := (next_timer s + 1)%N;
            awaiting := awaiting s; next_call := next_call s;
            trace := trace s ++ rearm_effects s |} →
    Trans i s s'
| T_wait (ms : N) :
    i = Elapse ms →
    s' = advanced ms (timers s) s →
    Trans i s s'
| T_fire (ms h due : N) :
    i = Elapse ms →
    timers s = [(h, due)] →
    (due <= clock s + ms)%N →
    s' = {| props := props s; view := view s; clock := (clock s + ms)%N;
            timers := []; next_timer := next_timer s;
            awaiting := <[next_call s := KDebounced (JsSet.elements (selectedApps (view s)))]>
                          (awaiting s);
            next_call := (next_call s + 1)%N;
            trace := trace s ++ [EPluginExec (next_call s) "setAllowedApps"
                                   [JsSet.elements (selectedApps (view s))]] |} →
    Trans i s s'
| T_load (c : N) (r : Outcome string) :
    i = LoadSettles c r →
    awaiting s !! c = Some KConnected →
    s' = {| props := props s;
            view := set_loading false (set_apps (loaded_apps r) (view s));
            clock := clock s; timers := timers s; next_timer := next_timer s;
            awaiting := delete c (awaiting s); next_call := next_call s;
            trace := trace s ++
                     caught "Failed to load installed apps:" (getInstalledApps_resume r) |} →
    Trans i s s'
| T_push (c : N) (packages : list string) (r : Outcome unit) :
    i = PushSettles c r →
    awaiting s !! c = Some (KDebounced packages) →
    s' = {| props := props s; view := view s; clock := clock s; timers := timers s;
            next_timer := next_timer s; awaiting := delete c (awaiting s);
            next_call := next_call s;
            trace := trace s ++ caught "Failed to set allowed apps:" r ++
                     [EDispatch "AllowedAppsChanged" true true packages] |} →
    Trans i s s'.

(** The view a step leaves, in any state. *)
Definition view_after (i : Input) (s : Sys) : View :=
  match i with
  | Connect =>
      set_selectedApps (JsSet.from_iter (initialSelectedApps (props s))) (view s)
  | SearchInput value => set_searchQuery value (view s)
  | Click p =>
      set_applyDebounceTimer (Some (next_timer s))
        (set_selectedApps (toggled p (selectedApps (view s))) (view s))
  | Elapse _ => view s
  | LoadSettles c r =>
      match awaiting s !! c with
      | Some KConnected => set_loading false (set_apps (loaded_apps r) (view s))
      | _ => view s
      end
  | PushSettles _ _ => view s
  end.

(** The package lists of the pushes that have not settled yet. *)
Definition flight_of (ck : N * Kont) : option (list string) :=
  match ck.2 with
  | KDebounced packages => Some packages
  | KConnected => None
  end.

Definition flights (m : gmap N Kont) : list (list string) :=
  omap flight_of (map_to_list m).

Definition is_click (i : Input) : bool :=
  match i with Click _ => true | _ => false end.

Definition is_connect (i : Input) : bool :=
  match i with Connect => true | _ => false end.

(** The number of clicks, and of connections, among the inputs. *)
Definition clicks (inputs : list Input) : nat := length (List.filter is_click inputs).

Definition connections (inputs : list Input) : nat :=
  length (List.filter is_connect inputs).

(** The calls for the app list, by call number, oldest first. *)
Definition load_of (e : Effect) : option N :=
  match e with
  | EPluginExec c method [] =>
      if bool_decide (method = "getInstalledApps") then Some c else None
  | _ => None
  end.

Definition loads (t : list Effect) : list N := omap load_of t.

(** The effects the component can have. *)
Definition expected_effect (e : Effect) : Prop :=
  match e with
  | EPluginExec _ method args =>
      (method = "getInstalledApps" ∧ args = []) ∨
      (method = "setAllowedApps" ∧ ∃ packages, args = [packages])
  | EConsoleError message _ =>
      message = "Failed to load installed apps:" ∨
      message = "Failed to set allowed apps:"
  | EDispatch type bubbles composed _ =>
      type = "AllowedAppsChanged" ∧ bubbles = true ∧ composed = true
  | ESetTimeout _ delay => delay = 500%N
  | EClearTimeout _ => True
  | EUnhandledRejection _ => False
  end.

(** Inputs that answer the request for the app list; inputs that run a
    handler which assigns the selection. *)
Definition is_load_answer (i : Input) : bool :=
  match i with LoadSettles _ _ => true | _ => false end.

Definition changes_selection (i : Input) : bool :=
  match i with Click _ | Connect => true | _ => false end.

(** The members of a list in the order of their first occurrence. *)
Fixpoint keep_first (l : list string) : list string :=
  match l with
  | [] => []
  | x :: l' => x :: filter (λ y, y ≠ x) (keep_first l')
  end.

(** The items of the list a page shows. *)
Definition rendered_items (h : Html) : list ListItem :=
  match h with
  | LoadingPage => []
  | ListPage _ _ _ _ items => items
  end.

(** The number of selected apps a page shows, if it shows one. *)
Definition rendered_count (h : Html) : option nat :=
  match h with
  | LoadingPage => None
  | ListPage _ _ _ count _ => Some count
  end.

(** A list item with its checkbox flipped. *)
Definition flipped (it : ListItem) : ListItem :=
  {| item_app := item_app it; item_checked := negb (item_checked it) |}.

(** The two labels compare as equal. *)
Definition same_label (a b : AppInfo) : Prop :=
  label_le a b ∧ label_le b a.

(** A second engine, whose parser answers every text with three apps in
    the order of their labels. *)
Definition ordered_engine : Builtins :=
  {| toLowerCase := Demo.lower; localeCompare := Demo.compare_codes;
     JSON_parse := λ _, Fulfilled [Demo.browser; Demo.mail; Demo.maps] |}.

(** How often [p] occurs in [ps]. *)
Definition occurrences (p : string) (ps : list string) : nat :=
  length (filter (λ q, q = p) ps).

(** The packages clicked among the inputs, oldest first. *)
Definition clicked (inputs : list Input) : list string :=
  omap (λ i, match i with Click p => Some p | _ => None end) inputs.

End Transitions.

(** * Properties *)

(** ** Sets in insertion order *)

Module JsSetFacts.
Import JsSet.

Lemma has_true (x : string) (s : t) : has x s = true ↔ x ∈ s.
Proof. unfold has. apply bool_decide_eq_true. Qed.

Lemma has_false (x : string) (s : t) : has x s = false ↔ x ∉ s.
Proof. unfold has. apply bool_decide_eq_false. Qed.

Lemma elem_of_add (y x : string) (s : t) : y ∈ add x s ↔ y = x ∨ y ∈ s.
Proof.
  unfold add. destruct (has x s) eqn:Hx.
  - apply has_true in Hx. split.
    + intros Hy. by right.
    + intros [Hy|Hy]; [by subst y | done].
  - rewrite elem_of_app, list_elem_of_singleton. tauto.
Qed.

Lemma elem_of_delete (y x : string) (s : t) : y ∈ delete x s ↔ y ≠ x ∧ y ∈ s.
Proof. unfold delete. by rewrite list_elem_of_filter. Qed.

Lemma elem_of_fold_add (y : string) (l : list string) (acc : t) :
  y ∈ foldl (λ s x, add x s) acc l ↔ y ∈ acc ∨ y ∈ l.
Proof.
  revert acc. induction l as [|x l IH]; intros acc; simpl.
  - rewrite elem_of_nil. tauto.
  - rewrite IH, elem_of_add, elem_of_cons. tauto.
Qed.

Lemma elem_of_from_iter (y : string) (l : list string) :
  y ∈ from_iter l ↔ y ∈ l.
Proof.
  unfold from_iter. rewrite elem_of_fold_add. unfold empty.
  rewrite elem_of_nil. tauto.
Qed.

Lemma NoDup_add (x : string) (s : t) : NoDup s → NoDup (add x s).
Proof.
  intros Hs. unfold add. destruct (has x s) eqn:Hx; [done|].
  apply has_false in Hx. apply NoDup_app. split_and!; [done| |apply NoDup_singleton].
  intros y Hy Hy'. apply list_elem_of_singleton in Hy'. by subst.
Qed.

Lemma NoDup_delete (x : string) (s : t) : NoDup s → NoDup (delete x s).
Proof. apply NoDup_filter. Qed.

Lemma NoDup_fold_add (l : list string) (acc : t) :
  NoDup acc → NoDup (foldl (λ s x, add x s) acc l).
Proof.
  revert acc. induction l as [|x l IH]; intros acc Hacc; simpl; [done|].
  apply IH. by apply NoDup_add.
Qed.

Lemma NoDup_from_iter (l : list string) : NoDup (from_iter l).
Proof. apply NoDup_fold_add. apply NoDup_nil_2. Qed.

Lemma fold_add_fresh (l : list string) (acc : t) :
  NoDup (acc ++ l) → foldl (λ s x, add x s) acc l = acc ++ l.
Proof.
  revert acc. induction l as [|x l IH]; intros acc Hnd; simpl.
  - by rewrite app_nil_r.
  - assert (has x acc = false) as Hx.
    { apply has_false. apply NoDup_app in Hnd as (_ & Hdisj & _).
      intros Hin. apply (Hdisj x Hin). left. }
    unfold add at 2. rewrite Hx.
    rewrite IH; [by rewrite <- app_assoc|].
    by rewrite <- app_assoc.
Qed.

(** Copying a set keeps its members and their order. *)
Lemma from_iter_copy (s : t) : NoDup s → from_iter (elements s) = s.
Proof. intros Hs. unfold from_iter, elements, empty. by rewrite fold_add_fresh. Qed.

Lemma members_spec (x : string) (s : t) : x ∈ members s ↔ x ∈ s.
Proof. unfold members. apply elem_of_list_to_set. Qed.

End JsSetFacts.

(** ** Toggling *)

Lemma elem_of_toggled (q p : string) (selected : JsSet.t) :
  q ∈ toggled p selected ↔
  (q ≠ p ∧ q ∈ selected) ∨ (q = p ∧ p ∉ selected).
Proof.
  unfold toggled, JsSet.elements.
  destruct (JsSet.has p (JsSet.from_iter selected)) eqn:Hp.
  - apply JsSetFacts.has_true in Hp. rewrite JsSetFacts.elem_of_from_iter in Hp.
    rewrite JsSetFacts.elem_of_delete, JsSetFacts.elem_of_from_iter. tauto.
  - apply JsSetFacts.has_false in Hp. rewrite JsSetFacts.elem_of_from_iter in Hp.
    rewrite JsSetFacts.elem_of_add, JsSetFacts.elem_of_from_iter.
    destruct (decide (q = p)) as [->|]; tauto.
Qed.

Lemma NoDup_toggled (p : string) (selected : JsSet.t) : NoDup (toggled p selected).
Proof.
  unfold toggled. destruct (JsSet.has _ _).
  - apply JsSetFacts.NoDup_delete, JsSetFacts.NoDup_from_iter.
  - apply JsSetFacts.NoDup_add, JsSetFacts.NoDup_from_iter.
Qed.

Lemma has_toggled (q p : string) (selected : JsSet.t) :
  JsSet.has q (toggled p selected) =
  if bool_decide (q = p) then negb (JsSet.has p selected) else JsSet.has q selected.
Proof.
  case_bool_decide as Hqp.
  - subst q. destruct (JsSet.has p selected) eqn:Hp; simpl.
    + apply JsSetFacts.has_true in Hp. apply JsSetFacts.has_false.
      rewrite elem_of_toggled. tauto.
    + apply JsSetFacts.has_false in Hp. apply JsSetFacts.has_true.
      rewrite elem_of_toggled. tauto.
  - destruct (JsSet.has q selected) eqn:Hq.
    + apply JsSetFacts.has_true in Hq. apply JsSetFacts.has_true.
      rewrite elem_of_toggled. tauto.
    + apply JsSetFacts.has_false in Hq. apply JsSetFacts.has_false.
      rewrite elem_of_toggled. tauto.
Qed.

Lemma members_toggled (p : string) (selected : JsSet.t) :
  JsSet.members (toggled p selected) =
  if JsSet.has p selected
  then JsSet.members selected ∖ {[p]}
  else JsSet.members selected ∪ {[p]}.
Proof.
  apply set_eq. intros q. rewrite JsSetFacts.members_spec, elem_of_toggled.
  destruct (JsSet.has p selected) eqn:Hp.
  - apply JsSetFacts.has_true in Hp.
    rewrite elem_of_difference, elem_of_singleton, JsSetFacts.members_spec. tauto.
  - apply JsSetFacts.has_false in Hp.
    rewrite elem_of_union, elem_of_singleton, JsSetFacts.members_spec.
    destruct (decide (q = p)) as [->|]; tauto.
Qed.

(** ** What each handler does to the state *)

Section Handlers.
Context `{Builtins}.

Lemma applyChanges_eq (s : Sys) :
  applyChanges s =
  (Fulfilled tt,
   {| props := props s;
      view := set_applyDebounceTimer (Some (next_timer s)) (view s);
      clock := clock s;
      timers := rearmed s;
      next_timer := (next_timer s + 1)%N;
      awaiting := awaiting s;
      next_call := next_call s;
      trace := trace s ++ rearm_effects s |}).
Proof.
  unfold applyChanges, rearmed, rearm_effects, mbind, M_bind, gets. simpl.
  destruct (truthy_handle (applyDebounceTimer (view s))); simpl.
  - unfold emit. simpl. by rewrite <- app_assoc.
  - reflexivity.
Qed.

Lemma toggleApp_eq (p : string) (s : Sys) :
  toggleApp p s =
  applyChanges (with_view (set_selectedApps (toggled p (selectedApps (view s)))) s).
Proof. reflexivity. Qed.

Lemma exec_toggleApp (p : string) (s : Sys) :
  exec (toggleApp p) s =
  {| props := props s;
     view := set_applyDebounceTimer (Some (next_timer s))
               (set_selectedApps (toggled p (selectedApps (view s))) (view s));
     clock := clock s;
     timers := rearmed s;
     next_timer := (next_timer s + 1)%N;
     awaiting := awaiting s;
     next_call := next_call s;
     trace := trace s ++ rearm_effects s |}.
Proof. unfold exec. rewrite toggleApp_eq, applyChanges_eq. reflexivity. Qed.

Lemma exec_onSearchInput (value : string) (s : Sys) :
  exec (onSearchInput value) s = with_view (set_searchQuery value) s.
Proof. reflexivity. Qed.

Lemma exec_connectedCallback (s : Sys) :
  exec connectedCallback s =
  {| props := props s;
     view := set_selectedApps (JsSet.from_iter (initialSelectedApps (props s))) (view s);
     clock := clock s;
     timers := timers s;
     next_timer := next_timer s;
     awaiting := <[next_call s := KConnected]> (awaiting s);
     next_call := (next_call s + 1)%N;
     trace := trace s ++ [EPluginExec (next_call s) "getInstalledApps" []] |}.
Proof. reflexivity. Qed.

Lemma exec_debounce_callback (s : Sys) :
  exec debounce_callback s =
  {| props := props s;
     view := view s;
     clock := clock s;
     timers := timers s;
     next_timer := next_timer s;
     awaiting := <[next_call s := KDebounced (JsSet.elements (selectedApps (view s)))]>
                   (awaiting s);
     next_call := (next_call s + 1)%N;
     trace := trace s ++ [EPluginExec (next_call s) "setAllowedApps"
                            [JsSet.elements (selectedApps (view s))]] |}.
Proof. reflexivity. Qed.

Lemma debounce_resume_eq (packages : list string) (r : Outcome unit) (s : Sys) :
  debounce_resume packages r s =
  (Fulfilled tt,
   {| props := props s; view := view s; clock := clock s; timers := timers s;
      next_timer := next_timer s; awaiting := awaiting s;
      next_call := next_call s;
      trace := trace s ++ caught "Failed to set allowed apps:" r ++
               [EDispatch "AllowedAppsChanged" true true packages] |}).
Proof.
  destruct r as [[]|e]; unfold debounce_resume, mbind, M_bind, try_catch; simpl.
  - reflexivity.
  - unfold dispatchEvent, console_error, modify, emit. simpl.
    by rewrite <- app_assoc.
Qed.

Lemma connectedCallback_resume_eq (r : Outcome string) (s : Sys) :
  connectedCallback_resume r s =
  (Fulfilled tt,
   {| props := props s;
      view := set_loading false (set_apps (loaded_apps r) (view s));
      clock := clock s; timers := timers s; next_timer := next_timer s;
      awaiting := awaiting s; next_call := next_call s;
      trace := trace s ++
               caught "Failed to load installed apps:" (getInstalledApps_resume r) |}).
Proof.
  unfold connectedCallback_resume, loaded_apps, mbind, M_bind, try_catch, await.
  simpl. destruct (getInstalledApps_resume r) as [l|e]; simpl.
  - by rewrite app_nil_r.
  - reflexivity.
Qed.

End Handlers.

(** ** Timers *)

Section Timers.
Context `{Builtins}.

Lemma elapse_idle (ms : N) (s : Sys) :
  timers s = [] → elapse ms s = advanced ms [] s.
Proof. intros Ht. unfold elapse. rewrite Ht. reflexivity. Qed.

Lemma elapse_early (ms h due : N) (s : Sys) :
  timers s = [(h, due)] → (clock s + ms < due)%N →
  elapse ms s = advanced ms [(h, due)] s.
Proof.
  intros Ht Hlt. unfold elapse. rewrite Ht.
  rewrite !filter_cons, !filter_nil.
  rewrite decide_False by (unfold is_due; simpl; lia).
  rewrite decide_True by (unfold is_due; simpl; lia).
  reflexivity.
Qed.

Lemma elapse_fires (ms h due : N) (s : Sys) :
  timers s = [(h, due)] → (due <= clock s + ms)%N →
  elapse ms s = exec debounce_callback (advanced ms [] s).
Proof.
  intros Ht Hle. unfold elapse. rewrite Ht.
  rewrite !filter_cons, !filter_nil.
  rewrite decide_True by (unfold is_due; simpl; lia).
  rewrite decide_False by (unfold is_due; simpl; intros Hn; apply Hn; lia).
  reflexivity.
Qed.

Lemma timer_inv_init (p : Props) : timer_inv (init p).
Proof. split; simpl; [lia | intros h Hh; discriminate]. Qed.

Lemma truthy_handle_pos (h : N) : (0 < h)%N → truthy_handle (Some h) = Some h.
Proof.
  intros Hh. simpl. destruct (N.eqb_spec h 0); [lia | done].
Qed.

(** From a state that satisfies the invariant, [applyChanges] leaves
    exactly the new timer armed. *)
Lemma rearmed_inv (s : Sys) :
  timer_inv s → rearmed s = [(next_timer s, (clock s + 500)%N)].
Proof.
  intros [_ Ht]. unfold rearmed.
  destruct (timers s) as [|[h due] [|t ts]] eqn:Hts; try done.
  - by destruct (truthy_handle _).
  - destruct Ht as (Hh & Hpos & _). rewrite Hh, truthy_handle_pos by done.
    simpl. rewrite filter_cons, filter_nil.
    rewrite decide_False; [done|]. simpl. intros Hn. by apply Hn.
Qed.

Lemma timer_inv_click (p : string) (s : Sys) :
  timer_inv s → timer_inv (step (Click p) s).
Proof.
  intros Hs. pose proof (rearmed_inv s Hs) as Hr. destruct Hs as [Hnt _].
  simpl. rewrite exec_toggleApp. split; simpl; [lia|].
  rewrite Hr. split_and!; [done | done | lia].
Qed.

Lemma timer_inv_elapse (ms : N) (s : Sys) :
  timer_inv s → timer_inv (step (Elapse ms) s).
Proof.
  intros [Hnt Ht]. simpl.
  destruct (timers s) as [|[h due] [|t ts]] eqn:Hts; try done.
  - rewrite elapse_idle by done. split; simpl; done.
  - destruct Ht as (Hh & Hpos & Hdue).
    destruct (decide (due <= clock s + ms)%N) as [Hle|Hgt].
    + rewrite (elapse_fires ms h due) by done. rewrite exec_debounce_callback.
      split; simpl; [done|]. intros h' Hh'. congruence.
    + rewrite (elapse_early ms h due) by (done || lia).
      split; simpl; [done|]. split_and!; [done | done | lia].
Qed.

Lemma timer_inv_step (i : Input) (s : Sys) :
  timer_inv s → timer_inv (step i s).
Proof.
  intros Hs. destruct i as [| value | p | ms | c r | c r].
  - destruct Hs as [Hnt Ht]. simpl. rewrite exec_connectedCallback.
    split; simpl; done.
  - done.
  - by apply timer_inv_click.
  - by apply timer_inv_elapse.
  - simpl. destruct (awaiting s !! c) as [[|packages]|]; try done.
    unfold exec. rewrite connectedCallback_resume_eq.
    destruct Hs as [Hnt Ht]. split; simpl; done.
  - simpl. destruct (awaiting s !! c) as [[|packages]|]; try done.
    unfold exec. rewrite debounce_resume_eq.
    destruct Hs as [Hnt Ht]. split; simpl; done.
Qed.

Lemma timer_inv_run (inputs : list Input) (s : Sys) :
  timer_inv s → timer_inv (run inputs s).
Proof.
  revert s. induction inputs as [|i inputs IH]; intros s Hs; simpl; [done|].
  apply IH. by apply timer_inv_step.
Qed.

Lemma run_app (xs ys : list Input) (s : Sys) :
  run (xs ++ ys) s = run ys (run xs s).
Proof. unfold run. apply foldl_app. Qed.

End Timers.

(** ** Bursts of clicks *)

Section Bursts.
Context `{Builtins}.

Lemma pushes_app (t u : list Effect) : pushes (t ++ u) = pushes t ++ pushes u.
Proof. unfold pushes. apply omap_app. Qed.

Lemma announced_app (t u : list Effect) :
  announced (t ++ u) = announced t ++ announced u.
Proof. unfold announced. apply omap_app. Qed.

Lemma pushes_rearm (s : Sys) : pushes (rearm_effects s) = [].
Proof. unfold rearm_effects. by destruct (truthy_handle _). Qed.

Lemma announced_rearm (s : Sys) : announced (rearm_effects s) = [].
Proof. unfold rearm_effects. by destruct (truthy_handle _). Qed.

Lemma quiet_refl (s : Sys) : quiet s s.
Proof. by repeat split. Qed.

Lemma quiet_trans (s1 s2 s3 : Sys) : quiet s1 s2 → quiet s2 s3 → quiet s1 s3.
Proof.
  intros (?&?&?&?) (?&?&?&?). repeat split; congruence.
Qed.

Lemma click_arms (p : string) (s : Sys) :
  timer_inv s →
  armed (step (Click p) s) ∧
  selectedApps (view (step (Click p) s)) = toggled p (selectedApps (view s)) ∧
  quiet s (step (Click p) s).
Proof.
  intros Hs. pose proof (timer_inv_click p s Hs) as Hinv.
  pose proof (rearmed_inv s Hs) as Hr.
  simpl in *. rewrite exec_toggleApp in *. split_and!.
  - split; [done|]. simpl. rewrite Hr. f_equal. f_equal. lia.
  - done.
  - repeat split; simpl.
    + by rewrite pushes_app, pushes_rearm, app_nil_r.
    + by rewrite announced_app, announced_rearm, app_nil_r.
Qed.

Lemma pause_keeps (g : N) (s : Sys) :
  armed s → (g < 500)%N →
  timer_inv (step (Elapse g) s) ∧
  view (step (Elapse g) s) = view s ∧
  quiet s (step (Elapse g) s).
Proof.
  intros [Hs Ht] Hg. pose proof (timer_inv_elapse g s Hs) as Hinv.
  simpl in *. rewrite (elapse_early g _ _ s Ht) in * by lia.
  split_and!; [done | done | by repeat split].
Qed.

Lemma burst_rest (rest : list (N * string)) (s : Sys) :
  armed s → Forall (λ gp, (gp.1 < 500)%N) rest →
  armed (run (flat_map (λ gp, [Elapse gp.1; Click gp.2]) rest) s) ∧
  selectedApps (view (run (flat_map (λ gp, [Elapse gp.1; Click gp.2]) rest) s)) =
    toggled_all (map snd rest) (selectedApps (view s)) ∧
  quiet s (run (flat_map (λ gp, [Elapse gp.1; Click gp.2]) rest) s).
Proof.
  revert s. induction rest as [|[g p] rest IH]; intros s Hs Hgaps.
  - simpl. split_and!; [done | done | apply quiet_refl].
  - apply Forall_cons in Hgaps as [Hg Hgaps]. simpl in Hg.
    destruct (pause_keeps g s Hs Hg) as (Hinv1 & Hview1 & Hq1).
    destruct (click_arms p _ Hinv1) as (Harm2 & Hsel2 & Hq2).
    destruct (IH _ Harm2 Hgaps) as (Harm3 & Hsel3 & Hq3).
    change (run (flat_map (λ gp, [Elapse gp.1; Click gp.2]) ((g, p) :: rest)) s)
      with (run (flat_map (λ gp, [Elapse gp.1; Click gp.2]) rest)
              (step (Click p) (step (Elapse g) s))).
    split_and!.
    + done.
    + rewrite Hsel3, Hsel2, Hview1. reflexivity.
    + eapply quiet_trans; [|exact Hq3]. eapply quiet_trans; [exact Hq1|exact Hq2].
Qed.

Lemma burst_run (p0 : string) (rest : list (N * string)) (s : Sys) :
  timer_inv s → Forall (λ gp, (gp.1 < 500)%N) rest →
  armed (run (burst p0 rest) s) ∧
  selectedApps (view (run (burst p0 rest) s)) =
    toggled_all (burst_packages p0 rest) (selectedApps (view s)) ∧
  quiet s (run (burst p0 rest) s).
Proof.
  intros Hs Hgaps.
  destruct (click_arms p0 s Hs) as (Harm1 & Hsel1 & Hq1).
  destruct (burst_rest rest _ Harm1 Hgaps) as (Harm2 & Hsel2 & Hq2).
  change (run (burst p0 rest) s)
    with (run (flat_map (λ gp, [Elapse gp.1; Click gp.2]) rest) (step (Click p0) s)).
  split_and!.
  - done.
  - rewrite Hsel2, Hsel1. reflexivity.
  - eapply quiet_trans; [exact Hq1|exact Hq2].
Qed.

(** Once the pause after a click reaches the delay, the timer fires. *)
Lemma armed_fires (tail : N) (s : Sys) :
  armed s → (500 <= tail)%N →
  step (Elapse tail) s = exec debounce_callback (advanced tail [] s).
Proof.
  intros [_ Ht] Htail. simpl. apply (elapse_fires tail _ _ s Ht). lia.
Qed.

Lemma settle_push (c : N) (packages : list string) (r : Outcome unit) (s : Sys) :
  awaiting s !! c = Some (KDebounced packages) →
  step (PushSettles c r) s =
  {| props := props s; view := view s; clock := clock s; timers := timers s;
     next_timer := next_timer s; awaiting := delete c (awaiting s);
     next_call := next_call s;
     trace := trace s ++ caught "Failed to set allowed apps:" r ++
              [EDispatch "AllowedAppsChanged" true true packages] |}.
Proof.
  intros Hc. simpl. rewrite Hc. unfold exec. rewrite debounce_resume_eq.
  reflexivity.
Qed.

Lemma settle_load (c : N) (r : Outcome string) (s : Sys) :
  awaiting s !! c = Some KConnected →
  step (LoadSettles c r) s =
  {| props := props s;
     view := set_loading false (set_apps (loaded_apps r) (view s));
     clock := clock s; timers := timers s; next_timer := next_timer s;
     awaiting := delete c (awaiting s); next_call := next_call s;
     trace := trace s ++
              caught "Failed to load installed apps:" (getInstalledApps_resume r) |}.
Proof.
  intros Hc. simpl. rewrite Hc. unfold exec. rewrite connectedCallback_resume_eq.
  reflexivity.
Qed.

End Bursts.

(** ** String search *)

Lemma starts_with_spec (s q : string) :
  starts_with s q = true ↔ ∃ post : string, s = q +:+ post.
Proof.
  revert s. induction q as [|c q IH]; intros s.
  - simpl. destruct s; split; intros _; try done; by eexists.
  - destruct s as [|d s]; simpl.
    + split; [done | intros [post Hpost]; discriminate].
    + rewrite andb_true_iff, bool_decide_eq_true, IH. split.
      * intros [-> [post ->]]. by exists post.
      * intros [post Hpost]. injection Hpost as -> ->. split; [done | by exists post].
Qed.

Lemma includes_spec (s q : string) : includes s q = true ↔ occurs_in q s.
Proof.
  unfold occurs_in. induction s as [|d s IH].
  - cbn [includes]. rewrite orb_false_r, starts_with_spec. split.
    + intros [post Hpost]. by exists EmptyString, post.
    + intros (pre & post & Hs). destruct pre; [by exists post | discriminate].
  - cbn [includes]. rewrite orb_true_iff, starts_with_spec, IH. split.
    + intros [[post Hpost] | (pre & post & Hs)].
      * by exists EmptyString, post.
      * exists (String d pre), post. simpl. by rewrite Hs.
    + intros (pre & post & Hs). destruct pre as [|d' pre].
      * left. by exists post.
      * right. simpl in Hs. injection Hs as -> Hs. by exists pre, post.
Qed.

#[global] Instance occurs_in_dec (q s : string) : Decision (occurs_in q s).
Proof.
  destruct (includes s q) eqn:Hi.
  - left. by apply includes_spec.
  - right. intros Ho. apply includes_spec in Ho. congruence.
Defined.

#[global] Instance shows_app_dec `{Builtins} (q : string) (app : AppInfo) :
  Decision (shows_app q app).
Proof. unfold shows_app, contains_ci. apply _. Defined.

Lemma filter_bool {A : Type} (f : A → bool) (P : A → Prop) `{∀ x, Decision (P x)}
    (l : list A) :
  (∀ x, f x = true ↔ P x) → List.filter f l = filter P l.
Proof.
  intros Hf. induction l as [|x l IH]; [done|].
  simpl. rewrite filter_cons. destruct (f x) eqn:Hx.
  - rewrite decide_True by (by apply Hf). by rewrite IH.
  - rewrite decide_False; [done|]. intros HP. apply Hf in HP. congruence.
Qed.

(** ** Sorting *)

Section Sorting.
Context {A : Type} (cmp : A → A → Z).

Let le (a b : A) : Prop := cmp a b <= 0.

Hypothesis cmp_total : ∀ a b, cmp a b <= 0 ∨ cmp b a <= 0.
Hypothesis cmp_trans : ∀ a b c, cmp a b <= 0 → cmp b c <= 0 → cmp a c <= 0.

Lemma sort_insert_perm (x : A) (l : list A) : sort_insert cmp x l ≡ₚ x :: l.
Proof.
  induction l as [|y l IH]; simpl; [done|].
  destruct (Z.leb (cmp x y) 0); [done|].
  rewrite IH. apply Permutation_swap.
Qed.

Lemma array_sort_perm (l : list A) : array_sort cmp l ≡ₚ l.
Proof.
  induction l as [|x l IH]; simpl; [done|].
  by rewrite sort_insert_perm, IH.
Qed.

Lemma sort_insert_sorted (x : A) (l : list A) :
  StronglySorted le l → StronglySorted le (sort_insert cmp x l).
Proof.
  induction l as [|y l IH]; intros Hl; simpl.
  - repeat constructor.
  - apply StronglySorted_cons in Hl as [Hy Hl].
    destruct (Z.leb (cmp x y) 0) eqn:Hxy.
    + apply Z.leb_le in Hxy. apply StronglySorted_cons. split.
      * constructor; [done|]. eapply Forall_impl; [exact Hy|].
        intros z Hz. unfold le in *. by eapply cmp_trans.
      * by apply StronglySorted_cons.
    + apply Z.leb_gt in Hxy. apply StronglySorted_cons. split; [|by apply IH].
      rewrite sort_insert_perm. constructor; [|done].
      unfold le. destruct (cmp_total y x); [done | lia].
Qed.

Lemma array_sort_sorted (l : list A) : StronglySorted le (array_sort cmp l).
Proof.
  induction l as [|x l IH]; simpl; [constructor|].
  by apply sort_insert_sorted.
Qed.

End Sorting.

Lemma StronglySorted_sublist {A : Type} (R : relation A) (k l : list A) :
  sublist k l → StronglySorted R l → StronglySorted R k.
Proof.
  induction 1 as [|x k l Hkl IH|x k l Hkl IH]; intros Hl.
  - constructor.
  - apply StronglySorted_cons in Hl as [Hx Hl]. apply StronglySorted_cons.
    split; [|by apply IH]. apply Forall_forall. intros y Hy.
    rewrite Forall_forall in Hx. apply Hx. by eapply elem_of_sublist.
  - apply StronglySorted_cons in Hl as [_ Hl]. by apply IH.
Qed.

(** ** The concrete engine satisfies the assumptions on the built-ins *)

Module DemoFacts.
Import Demo.

Lemma lower_empty : @lower_keeps_empty engine.
Proof. intros s. simpl. by destruct s. Qed.

Lemma compare_codes_le (a b : string) :
  compare_codes a b <= 0 ↔ String.compare a b ≠ Gt.
Proof. unfold compare_codes. destruct (String.compare a b); split; (done || lia). Qed.

Lemma string_compare_trans (a b c : string) :
  String.compare a b ≠ Gt → String.compare b c ≠ Gt → String.compare a c ≠ Gt.
Proof.
  revert b c. induction a as [|x a IH]; intros [|y b] [|z c]; simpl; try done.
  unfold Ascii.compare.
  destruct (N.compare_spec (Ascii.N_of_ascii x) (Ascii.N_of_ascii y)) as [Hxy|Hxy|Hxy];
    destruct (N.compare_spec (Ascii.N_of_ascii y) (Ascii.N_of_ascii z)) as [Hyz|Hyz|Hyz];
    destruct (N.compare_spec (Ascii.N_of_ascii x) (Ascii.N_of_ascii z)) as [Hxz|Hxz|Hxz];
    try done; try lia.
  apply IH.
Qed.

Lemma collation_is_total : @collation_total engine.
Proof.
  intros a b. simpl. rewrite !compare_codes_le.
  rewrite (String.compare_antisym b a). destruct (String.compare a b); simpl; auto.
Qed.

Lemma collation_is_trans : @collation_trans engine.
Proof. intros a b c. simpl. rewrite !compare_codes_le. apply string_compare_trans. Qed.

End DemoFacts.

(** ** Running the model *)

Module DemoRuns.
Import Demo.

Example connected_view :
  view connected =
  {| apps := [browser; mail; maps]; selectedApps := ["org.maps"];
     searchQuery := ""; loading := false; applyDebounceTimer := None |}.
Proof. reflexivity. Qed.

Example search_is_case_blind :
  rendered_apps (@render engine element (view (@step engine (SearchInput "MA") connected))) =
  Some [mail; maps].
Proof. reflexivity. Qed.

(** Three clicks within a second: one push, 500 ms after the last click. *)
Example three_clicks_one_push :
  let clicks := burst "com.mail" [(100%N, "org.maps"); (499%N, "org.browser")] in
  pushes (trace (@run engine (clicks ++ [Elapse 499]) connected)) = [] ∧
  pushes (trace (@run engine (clicks ++ [Elapse 500; Elapse 5000]) connected)) =
    [["com.mail"; "org.browser"]].
Proof. split; reflexivity. Qed.

(** Clicks more than 500 ms apart are pushed one by one. *)
Example slow_clicks_push_each :
  pushes (trace (@run engine [Click "com.mail"; Elapse 500; Click "org.maps"; Elapse 500]
                   connected)) =
  [["org.maps"; "com.mail"]; ["com.mail"]].
Proof. reflexivity. Qed.

(** A text that is not JSON: the list stays empty and the page is shown. *)
Example malformed_answer :
  let s := @run engine [Connect; LoadSettles 0 (Fulfilled "oops")] (init element) in
  apps (view s) = [] ∧ loading (view s) = false ∧
  trace s = [EPluginExec 0 "getInstalledApps" [];
             EConsoleError "Failed to load installed apps:" (SyntaxError "oops")].
Proof. split_and!; reflexivity. Qed.

(** Toggling twice keeps the members but moves the package to the end of
    the iteration order. *)
Example toggled_twice_order :
  toggled "a" (toggled "a" ["a"; "b"]) = ["b"; "a"].
Proof. reflexivity. Qed.

End DemoRuns.

(** * The claims *)

(** ** The data-access functions *)

(** C4.  [getInstalledApps] calls the bridge with the method name
    ['getInstalledApps'] and no argument; when the bridge answers with a text
    it returns what [JSON.parse] makes of that text, and when the bridge
    rejects it rejects with the reason it was given. *)
Theorem getInstalledApps_parses_bridge_answer `{Builtins}
    (s : Sys) (text : string) (e : JsError) :
  fst (getInstalledApps s) = Fulfilled (next_call s) ∧
  trace (snd (getInstalledApps s)) =
    trace s ++ [EPluginExec (next_call s) "getInstalledApps" []] ∧
  getInstalledApps_resume (Fulfilled text) = JSON_parse text ∧
  getInstalledApps_resume (Rejected e) = Rejected e.
Proof. by split_and!. Qed.

(** C5.  [setAllowedApps packages] calls the bridge with the method name
    ['setAllowedApps'] and the package list it was given as the only
    argument; it resolves with void when the bridge resolves and rejects
    when the bridge rejects. *)
Theorem setAllowedApps_forwards_to_bridge
    (packages : list string) (s : Sys) (e : JsError) :
  fst (setAllowedApps packages s) = Fulfilled (next_call s) ∧
  trace (snd (setAllowedApps packages s)) =
    trace s ++ [EPluginExec (next_call s) "setAllowedApps" [packages]] ∧
  pushes (trace (snd (setAllowedApps packages s))) = pushes (trace s) ++ [packages] ∧
  setAllowedApps_resume (Fulfilled tt) = Fulfilled tt ∧
  setAllowedApps_resume (Rejected e) = Rejected e.
Proof.
  split_and!; try done. simpl. unfold pushes. by rewrite omap_app.
Qed.

(** ** Selection *)

(** C2.  [toggleApp p] turns the selection [S] into [S] without [p] when
    [p] is a member of [S], and into [S] with [p] added when it is not; the
    membership of every other package is unchanged. *)
Theorem toggleApp_toggles_membership (p : string) (s : Sys) :
  let S := selectedApps (view s) in
  let S' := selectedApps (view (exec (toggleApp p) s)) in
  JsSet.members S' =
    (if JsSet.has p S then JsSet.members S ∖ {[p]} else JsSet.members S ∪ {[p]}) ∧
  ∀ q : string,
    JsSet.has q S' = if bool_decide (q = p) then negb (JsSet.has p S) else JsSet.has q S.
Proof.
  intros S S'. subst S S'. rewrite exec_toggleApp. simpl. split.
  - apply members_toggled.
  - intros q. apply has_toggled.
Qed.

(** C9.  Toggling the same package twice in succession gives back a
    selection with the members of the original one. *)
Theorem toggleApp_twice_restores_membership (p : string) (s : Sys) :
  let S := selectedApps (view s) in
  let S'' := selectedApps (view (exec (toggleApp p) (exec (toggleApp p) s))) in
  JsSet.members S'' = JsSet.members S ∧
  ∀ q : string, JsSet.has q S'' = JsSet.has q S.
Proof.
  intros S S''. subst S S''. rewrite !exec_toggleApp. simpl.
  assert (∀ q : string,
    JsSet.has q (toggled p (toggled p (selectedApps (view s)))) =
    JsSet.has q (selectedApps (view s))) as Hhas.
  { intros q. rewrite !has_toggled. case_bool_decide; [subst q|done].
    rewrite bool_decide_eq_true_2 by done. apply negb_involutive. }
  split; [|done].
  apply set_eq. intros q. rewrite !JsSetFacts.members_spec.
  rewrite <- !JsSetFacts.has_true. by rewrite Hhas.
Qed.

(** ** Searching *)

(** C7.  [onSearchInput] changes the search text and nothing else: the app
    list, the selection, the loading flag and the timer handle are the same,
    no effect is emitted (so no bridge call), and the timers and the pending
    bridge calls are untouched. *)
Theorem onSearchInput_changes_only_query `{Builtins} (value : string) (s : Sys) :
  let s' := step (SearchInput value) s in
  searchQuery (view s') = value ∧
  apps (view s') = apps (view s) ∧
  selectedApps (view s') = selectedApps (view s) ∧
  loading (view s') = loading (view s) ∧
  applyDebounceTimer (view s') = applyDebounceTimer (view s) ∧
  trace s' = trace s ∧
  timers s' = timers s ∧
  next_timer s' = next_timer s ∧
  awaiting s' = awaiting s ∧
  next_call s' = next_call s ∧
  clock s' = clock s ∧
  fst (onSearchInput value s) = Fulfilled tt.
Proof. by split_and!. Qed.

Lemma matches_query_spec `{Builtins} (q : string) (app : AppInfo) :
  matches_query (toLowerCase q) app = true ↔ shows_app q app.
Proof.
  unfold matches_query, shows_app, contains_ci.
  by rewrite orb_true_iff, !includes_spec.
Qed.

Lemma rendered_apps_render `{Builtins} (p : Props) (v : View) :
  loading v = false → rendered_apps (render p v) = Some (filteredApps v).
Proof.
  intros Hl. unfold render. rewrite Hl. simpl. f_equal.
  rewrite map_map. simpl. apply map_id.
Qed.

Lemma filteredApps_sublist `{Builtins} (v : View) : sublist (filteredApps v) (apps v).
Proof.
  unfold filteredApps. destruct (truthy_string _); [|done].
  induction (apps v) as [|a l IH]; simpl; [constructor|].
  destruct (matches_query _ a); by constructor.
Qed.

(** C3.  With a non-empty search text [q] the page lists exactly the apps
    whose label or package name contains [q] when case is ignored, in the
    order of the app list; with the empty search text it lists the whole app
    list. *)
Theorem render_lists_matching_apps `{Builtins} (p : Props) (v : View) :
  lower_keeps_empty →
  loading v = false →
  let q := searchQuery v in
  let shown :=
    if decide (q = EmptyString) then apps v else filter (shows_app q) (apps v) in
  rendered_apps (render p v) = Some shown ∧
  sublist shown (apps v) ∧
  ∀ app : AppInfo, app ∈ shown ↔ app ∈ apps v ∧ (q = EmptyString ∨ shows_app q app).
Proof.
  intros Hlow Hl q shown.
  assert (filteredApps v = shown) as Hshown.
  { subst shown q. unfold filteredApps, truthy_string. case_decide as Hq.
    - rewrite bool_decide_eq_true_2; [done|]. by apply Hlow.
    - rewrite bool_decide_eq_false_2 by (intros Hq'; apply Hq; by apply Hlow).
      simpl.
      apply filter_bool. intros app. apply matches_query_spec. }
  split_and!.
  - rewrite <- Hshown. by apply rendered_apps_render.
  - rewrite <- Hshown. apply filteredApps_sublist.
  - intros app. subst shown. case_decide as Hq.
    + split; [intros Hin; split; [done | by left] | by intros [Hin _]].
    + rewrite list_elem_of_filter. split.
      * intros [Hs Hin]. split; [done | by right].
      * intros [Hin [Hq'|Hs]]; [done | by split].
Qed.

Lemma render_lists_matching_apps_witness :
  @lower_keeps_empty Demo.engine ∧
  loading Demo.listed_view = false ∧
  @rendered_apps (@render Demo.engine Demo.element Demo.listed_view) =
    Some [Demo.mail; Demo.maps].
Proof.
  split_and!.
  - exact DemoFacts.lower_empty.
  - reflexivity.
  - exact (proj1 (@render_lists_matching_apps Demo.engine Demo.element Demo.listed_view
                    DemoFacts.lower_empty eq_refl)).
Defined.

(** ** Connection *)

Lemma by_label_total `{Builtins} :
  collation_total → ∀ a b : AppInfo, by_label a b <= 0 ∨ by_label b a <= 0.
Proof. intros Ht a b. apply Ht. Qed.

Lemma by_label_trans `{Builtins} :
  collation_trans →
  ∀ a b c : AppInfo, by_label a b <= 0 → by_label b c <= 0 → by_label a c <= 0.
Proof. intros Ht a b c. apply Ht. Qed.

(** C6.  While [connectedCallback] waits for the app list (which it does
    from the moment of connection), whatever the bridge promise settles
    with: the loading flag is false afterwards and [connectedCallback]
    itself completes normally, the only effect being a [console.error] when
    [getInstalledApps] rejected.  When the bridge rejects, the app list is
    empty afterwards. *)
Theorem connectedCallback_contains_failure `{Builtins}
    (s : Sys) (c : N) (r : Outcome string) (e : JsError) :
  awaiting s !! c = Some KConnected →
  let failed := step (LoadSettles c (Rejected e)) s in
  let settled := step (LoadSettles c r) s in
  awaiting (step Connect s) !! next_call s = Some KConnected ∧
  apps (view failed) = [] ∧
  trace failed = trace s ++ [EConsoleError "Failed to load installed apps:" e] ∧
  loading (view settled) = false ∧
  fst (connectedCallback_resume r (with_awaiting (delete c) s)) = Fulfilled tt ∧
  trace settled =
    trace s ++ caught "Failed to load installed apps:" (getInstalledApps_resume r) ∧
  match getInstalledApps_resume r with
  | Rejected _ => apps (view settled) = []
  | Fulfilled loaded => apps (view settled) ≡ₚ loaded
  end.
Proof.
  intros Hc failed settled. subst failed settled.
  rewrite !(settle_load c _ s Hc), connectedCallback_resume_eq.
  change (step Connect s) with (exec connectedCallback s).
  rewrite exec_connectedCallback. simpl. split_and!; try done.
  - apply lookup_insert_eq.
  - unfold loaded_apps. destruct (getInstalledApps_resume r) as [l|e']; [|done].
    apply array_sort_perm.
Qed.

Lemma connectedCallback_contains_failure_witness :
  awaiting (@step Demo.engine Connect (init Demo.element)) !! 0%N = Some KConnected ∧
  loading (view (@run Demo.engine
                   [Connect; LoadSettles 0 (Rejected (NativeError "no plugin"))]
                   (init Demo.element))) = false.
Proof.
  split.
  - reflexivity.
  - exact (proj1 (proj2 (proj2 (proj2
      (@connectedCallback_contains_failure Demo.engine
         (@step Demo.engine Connect (init Demo.element)) 0%N
         (Rejected (NativeError "no plugin")) (NativeError "no plugin")
         eq_refl))))).
Defined.

(** C8.  After a load that succeeded, the app list holds the apps the
    bridge returned, in ascending order of their labels under
    [localeCompare]; so does the list the page shows, whatever the search
    text. *)
Theorem connectedCallback_sorts_by_label `{Builtins}
    (s : Sys) (c : N) (text : string) (loaded : list AppInfo) (q : string) :
  collation_total →
  collation_trans →
  awaiting s !! c = Some KConnected →
  JSON_parse text = Fulfilled loaded →
  let s' := step (LoadSettles c (Fulfilled text)) s in
  StronglySorted label_le (apps (view s')) ∧
  apps (view s') ≡ₚ loaded ∧
  ∃ shown : list AppInfo,
    rendered_apps (render (props s') (view (step (SearchInput q) s'))) = Some shown ∧
    StronglySorted label_le shown ∧
    sublist shown (apps (view s')).
Proof.
  intros Htotal Htrans Hc Hparse s'.
  assert (apps (view s') = array_sort by_label loaded) as Happs.
  { subst s'. rewrite (settle_load c _ s Hc). simpl.
    unfold loaded_apps. simpl. by rewrite Hparse. }
  assert (loading (view s') = false) as Hloading.
  { subst s'. by rewrite (settle_load c _ s Hc). }
  assert (StronglySorted label_le (apps (view s'))) as Hsorted.
  { rewrite Happs. apply (array_sort_sorted by_label);
      [by apply by_label_total | by apply by_label_trans]. }
  split_and!.
  - done.
  - rewrite Happs. apply array_sort_perm.
  - exists (filteredApps (view (step (SearchInput q) s'))).
    pose proof (filteredApps_sublist (view (step (SearchInput q) s'))) as Hsub.
    change (apps (view (step (SearchInput q) s'))) with (apps (view s')) in Hsub.
    split_and!.
    + by apply rendered_apps_render.
    + by eapply StronglySorted_sublist.
    + done.
Qed.

Lemma connectedCallback_sorts_by_label_witness :
  @collation_total Demo.engine ∧
  @collation_trans Demo.engine ∧
  awaiting (@step Demo.engine Connect (init Demo.element)) !! 0%N = Some KConnected ∧
  @JSON_parse Demo.engine Demo.installed_text =
    Fulfilled [Demo.maps; Demo.browser; Demo.mail] ∧
  StronglySorted (@label_le Demo.engine)
    (apps (view (@run Demo.engine
                   [Connect; LoadSettles 0 (Fulfilled Demo.installed_text)]
                   (init Demo.element)))).
Proof.
  split_and!.
  - exact DemoFacts.collation_is_total.
  - exact DemoFacts.collation_is_trans.
  - reflexivity.
  - reflexivity.
  - exact (proj1
      (@connectedCallback_sorts_by_label Demo.engine
         (@step Demo.engine Connect (init Demo.element)) 0%N
         Demo.installed_text [Demo.maps; Demo.browser; Demo.mail] "ma"
         DemoFacts.collation_is_total DemoFacts.collation_is_trans
         eq_refl eq_refl)).
Defined.

(** ** The debounced push *)

Section Pending.
Context `{Builtins}.

Lemma in_flight_fire_all (due : list (N * N)) (c : N) (packages : list string)
    (s : Sys) :
  in_flight c packages s → in_flight c packages (fire_all due s).
Proof.
  revert s. induction due as [|t due IH]; intros s [Hc Hlt]; [done|].
  simpl. apply IH. rewrite exec_debounce_callback. split; simpl; [|lia].
  rewrite lookup_insert_ne by lia. done.
Qed.

Lemma in_flight_step (i : Input) (c : N) (packages : list string) (s : Sys) :
  (∀ r, i ≠ PushSettles c r) →
  in_flight c packages s → in_flight c packages (step i s).
Proof.
  intros Hi [Hc Hlt]. destruct i as [| value | p | ms | c' r | c' r].
  - simpl. rewrite exec_connectedCallback. split; simpl; [|lia].
    rewrite lookup_insert_ne by lia. done.
  - done.
  - simpl. rewrite exec_toggleApp. done.
  - simpl. unfold elapse. by apply in_flight_fire_all.
  - simpl. destruct (awaiting s !! c') as [[|packages']|] eqn:Hc'; try done.
    unfold exec. rewrite connectedCallback_resume_eq. split; simpl; [|done].
    rewrite lookup_delete_ne by congruence. done.
  - assert (c' ≠ c) as Hne by (intros ->; by apply (Hi r)).
    simpl. destruct (awaiting s !! c') as [[|packages']|] eqn:Hc'; try done.
    unfold exec. rewrite debounce_resume_eq. split; simpl; [|done].
    rewrite lookup_delete_ne by done. done.
Qed.

Lemma in_flight_run (inputs : list Input) (c : N) (packages : list string)
    (s : Sys) :
  Forall (λ i, ∀ r, i ≠ PushSettles c r) inputs →
  in_flight c packages s → in_flight c packages (run inputs s).
Proof.
  revert s. induction inputs as [|i inputs IH]; intros s Hall Hs; [done|].
  apply Forall_cons in Hall as [Hi Hall]. simpl. apply IH; [done|].
  by apply in_flight_step.
Qed.

End Pending.

(** C10.  When the debounce timer fires, the selection of that moment is
    pushed; whatever happens until the push settles, if it settles with a
    rejection the rejection is logged, the timer callback completes
    normally, and [AllowedAppsChanged] is dispatched with the package list
    that was pushed. *)
Theorem push_rejection_keeps_event `{Builtins}
    (s : Sys) (h due ms : N) (between : list Input) (e : JsError) :
  timers s = [(h, due)] →
  (due <= clock s + ms)%N →
  Forall (λ i, ∀ r, i ≠ PushSettles (next_call s) r) between →
  let packages := JsSet.elements (selectedApps (view s)) in
  let fired := step (Elapse ms) s in
  let later := run between fired in
  let final := step (PushSettles (next_call s) (Rejected e)) later in
  trace fired = trace s ++ [EPluginExec (next_call s) "setAllowedApps" [packages]] ∧
  trace final =
    trace later ++ [EConsoleError "Failed to set allowed apps:" e;
                    EDispatch "AllowedAppsChanged" true true packages] ∧
  fst (debounce_resume packages (Rejected e) later) = Fulfilled tt ∧
  view final = view later.
Proof.
  intros Ht Hdue Hbetween packages fired later final.
  assert (fired = exec debounce_callback (advanced ms [] s)) as Hfired.
  { subst fired. simpl. by apply (elapse_fires ms h due). }
  assert (in_flight (next_call s) packages later) as [Hc _].
  { subst later. apply in_flight_run; [done|]. rewrite Hfired.
    rewrite exec_debounce_callback. split; simpl; [|lia].
    apply lookup_insert_eq. }
  split_and!.
  - rewrite Hfired. by rewrite exec_debounce_callback.
  - subst final. by rewrite (settle_push _ packages _ later Hc).
  - by rewrite debounce_resume_eq.
  - subst final. by rewrite (settle_push _ packages _ later Hc).
Qed.

Lemma push_rejection_keeps_event_witness :
  let s := @run Demo.engine [Connect; Click "com.mail"] (init Demo.element) in
  let between := [Click "org.browser"; SearchInput "b"] in
  let later := @run Demo.engine between (@step Demo.engine (Elapse 500) s) in
  timers s = [(1, 500)%N] ∧
  (500 <= clock s + 500)%N ∧
  Forall (λ i, ∀ r, i ≠ PushSettles (next_call s) r) between ∧
  trace (@step Demo.engine (PushSettles 1 (Rejected (NativeError "tunnel down"))) later) =
    trace later ++
    [EConsoleError "Failed to set allowed apps:" (NativeError "tunnel down");
     EDispatch "AllowedAppsChanged" true true ["org.maps"; "com.mail"]].
Proof.
  intros s between later.
  assert (500 <= clock s + 500)%N as Hdue by (vm_compute; discriminate).
  assert (Forall (λ i, ∀ r, i ≠ PushSettles (next_call s) r) between) as Hbetween
    by (repeat constructor; intros r; discriminate).
  split_and!; [reflexivity | exact Hdue | exact Hbetween |].
  exact (proj1 (proj2
    (@push_rejection_keeps_event Demo.engine s 1%N 500%N 500%N between
       (NativeError "tunnel down") eq_refl Hdue Hbetween))).
Defined.

(** C1.  In every reachable state a call to [applyChanges] leaves exactly
    one timer armed, its own, due 500 ms later.  So for a burst of clicks
    less than 500 ms apart, started in any reachable state: nothing is
    pushed or announced while the burst lasts; once 500 ms have passed
    after the last click the timer fires and [setAllowedApps] is called
    once, with the selection as it stands then; waiting longer pushes
    nothing more; and when that push settles [AllowedAppsChanged] is
    dispatched with the same package list. *)
Theorem debounce_pushes_once `{Builtins}
    (p : Props) (history : list Input) (p0 : string) (rest : list (N * string))
    (tail more : N) (r : Outcome unit) :
  Forall (λ gp, (gp.1 < 500)%N) rest →
  (500 <= tail)%N →
  let s0 := run history (init p) in
  let s1 := run (burst p0 rest) s0 in
  let s2 := step (Elapse tail) s1 in
  let s3 := step (PushSettles (next_call s0) r) s2 in
  let packages :=
    JsSet.elements (toggled_all (burst_packages p0 rest) (selectedApps (view s0))) in
  timers (exec applyChanges s0) = [(next_timer s0, (clock s0 + 500)%N)] ∧
  applyDebounceTimer (view (exec applyChanges s0)) = Some (next_timer s0) ∧
  pushes (trace s1) = pushes (trace s0) ∧
  announced (trace s1) = announced (trace s0) ∧
  JsSet.elements (selectedApps (view s1)) = packages ∧
  trace s2 = trace s1 ++ [EPluginExec (next_call s0) "setAllowedApps" [packages]] ∧
  pushes (trace s2) = pushes (trace s0) ++ [packages] ∧
  trace (step (Elapse more) s2) = trace s2 ∧
  trace s3 =
    trace s2 ++ caught "Failed to set allowed apps:" r ++
    [EDispatch "AllowedAppsChanged" true true packages].
Proof.
  intros Hgaps Htail s0 s1 s2 s3 packages.
  assert (timer_inv s0) as Hs0 by apply timer_inv_run, timer_inv_init.
  destruct (burst_run p0 rest s0 Hs0 Hgaps) as (Harm & Hsel & Hpush & Hann & Hcall & Haw).
  fold s1 in Harm, Hsel, Hpush, Hann, Hcall, Haw.
  assert (s2 = exec debounce_callback (advanced tail [] s1)) as Hs2
    by (by apply armed_fires).
  rewrite exec_debounce_callback in Hs2. simpl in Hs2.
  rewrite Hcall, Hsel in Hs2. fold packages in Hs2.
  assert (awaiting s2 !! next_call s0 = Some (KDebounced packages)) as Hc.
  { rewrite Hs2. simpl. apply lookup_insert_eq. }
  assert (trace s2 = trace s1 ++ [EPluginExec (next_call s0) "setAllowedApps" [packages]])
    as Htrace2 by (by rewrite Hs2).
  split_and!.
  - unfold exec. rewrite applyChanges_eq. simpl. by apply rearmed_inv.
  - unfold exec. by rewrite applyChanges_eq.
  - done.
  - done.
  - by rewrite Hsel.
  - done.
  - rewrite Htrace2, pushes_app, Hpush. done.
  - simpl. rewrite elapse_idle; by rewrite Hs2.
  - subst s3. by rewrite (settle_push _ packages r s2 Hc).
Qed.

Lemma debounce_pushes_once_witness :
  let history := [Connect; LoadSettles 0 (Fulfilled Demo.installed_text)] in
  let rest := [(100%N, "org.maps"); (499%N, "org.browser")] in
  let clicks := @run Demo.engine (burst "com.mail" rest)
                  (@run Demo.engine history (init Demo.element)) in
  Forall (λ gp : N * string, (gp.1 < 500)%N) rest ∧
  (500 <= 500)%N ∧
  trace (@step Demo.engine (Elapse 500) clicks) =
    trace clicks ++ [EPluginExec 1 "setAllowedApps" [["com.mail"; "org.browser"]]].
Proof.
  intros history rest clicks.
  assert (Forall (λ gp : N * string, (gp.1 < 500)%N) rest) as Hgaps
    by (repeat constructor).
  assert (500 <= 500)%N as Htail by reflexivity.
  split_and!; [exact Hgaps | exact Htail |].
  pose proof (@debounce_pushes_once Demo.engine Demo.element history "com.mail" rest
                500%N 0%N (Fulfilled tt) Hgaps Htail) as Hburst.
  exact (proj1 (proj2 (proj2 (proj2 (proj2 (proj2 Hburst)))))).
Defined.

(** * Further properties of the component *)

(** ** Every step is one of the transitions *)

Section Steps.
Context `{Builtins}.

Lemma step_trans (i : Input) (s : Sys) : timer_inv s → Trans i s (step i s).
Proof.
  intros Hinv. destruct i as [| value | p | ms | c r | c r].
  - by apply T_connect.
  - by apply (T_search _ _ _ value).
  - apply (T_click _ _ _ p); [done|].
    change (step (Click p) s) with (exec (toggleApp p) s).
    by rewrite exec_toggleApp, (rearmed_inv s Hinv).
  - change (step (Elapse ms) s) with (elapse ms s).
    destruct Hinv as [_ Ht].
    destruct (timers s) as [|[h due] [|t ts]] eqn:Hts; try done.
    + apply (T_wait _ _ _ ms); [done|]. rewrite elapse_idle by done. by rewrite Hts.
    + destruct (decide (due <= clock s + ms)%N) as [Hle|Hgt].
      * apply (T_fire _ _ _ ms h due); try done.
        by rewrite (elapse_fires ms h due), exec_debounce_callback.
      * apply (T_wait _ _ _ ms); [done|].
        rewrite (elapse_early ms h due) by (done || lia). by rewrite Hts.
  - destruct (awaiting s !! c) as [[|packages]|] eqn:Hc.
    + apply (T_load _ _ _ c r); try done. by apply settle_load.
    + apply T_ignored; [left; eauto | simpl; by rewrite Hc].
    + apply T_ignored; [left; eauto | simpl; by rewrite Hc].
  - destruct (awaiting s !! c) as [[|packages]|] eqn:Hc.
    + apply T_ignored; [right; eauto | simpl; by rewrite Hc].
    + apply (T_push _ _ _ c packages r); try done. by apply settle_push.
    + apply T_ignored; [right; eauto | simpl; by rewrite Hc].
Qed.

(** Induction over the reachable states. *)
Lemma reachable_ind (P : Sys → Prop) (p : Props) :
  P (init p) →
  (∀ i s s', timer_inv s → P s → Trans i s s' → P s') →
  ∀ history, P (run history (init p)).
Proof.
  intros Hinit Hstep history.
  assert (∀ s, timer_inv s ∧ P s → timer_inv (run history s) ∧ P (run history s))
    as Hrun.
  { induction history as [|i history IH]; intros s [Hinv HP]; [done|].
    simpl. apply IH. split; [by apply timer_inv_step|].
    apply (Hstep i s); [done | done | by apply step_trans]. }
  apply Hrun. split; [apply timer_inv_init | done].
Qed.

Lemma view_fire_all (due : list (N * N)) (s : Sys) : view (fire_all due s) = view s.
Proof.
  revert s. induction due as [|t due IH]; intros s; [done|].
  simpl. by rewrite IH, exec_debounce_callback.
Qed.

Lemma view_step (i : Input) (s : Sys) : view (step i s) = view_after i s.
Proof.
  destruct i as [| value | p | ms | c r | c r]; try done.
  - change (step (Click p) s) with (exec (toggleApp p) s). by rewrite exec_toggleApp.
  - change (step (Elapse ms) s) with (elapse ms s). unfold elapse.
    by rewrite view_fire_all.
  - simpl. destruct (awaiting s !! c) as [[|packages]|] eqn:Hc; try done.
    unfold exec. by rewrite connectedCallback_resume_eq.
  - simpl. destruct (awaiting s !! c) as [[|packages]|] eqn:Hc; try done.
    unfold exec. by rewrite debounce_resume_eq.
Qed.

Lemma props_fire_all (due : list (N * N)) (s : Sys) : props (fire_all due s) = props s.
Proof.
  revert s. induction due as [|t due IH]; intros s; [done|].
  simpl. by rewrite IH, exec_debounce_callback.
Qed.

Lemma props_step (i : Input) (s : Sys) : props (step i s) = props s.
Proof.
  destruct i as [| value | p | ms | c r | c r]; try done.
  - change (step (Click p) s) with (exec (toggleApp p) s). by rewrite exec_toggleApp.
  - change (step (Elapse ms) s) with (elapse ms s). unfold elapse.
    by rewrite props_fire_all.
  - simpl. destruct (awaiting s !! c) as [[|packages]|] eqn:Hc; try done.
    unfold exec. by rewrite connectedCallback_resume_eq.
  - simpl. destruct (awaiting s !! c) as [[|packages]|] eqn:Hc; try done.
    unfold exec. by rewrite debounce_resume_eq.
Qed.

Lemma pushes_caught (message : string) {A : Type} (r : Outcome A) :
  pushes (caught message r) = [].
Proof. by destruct r. Qed.

Lemma announced_caught (message : string) {A : Type} (r : Outcome A) :
  announced (caught message r) = [].
Proof. by destruct r. Qed.

End Steps.

(** ** Invariants of the reachable states *)

Section Invariants.
Context `{Builtins}.

(** X1.  Whatever the inputs and whatever the initial selection (duplicates
    included), the selection never lists a package twice, and neither does
    any package list that was pushed to the native side or announced by
    [AllowedAppsChanged]. *)
Theorem package_lists_have_no_duplicates (p : Props) (history : list Input) :
  NoDup (JsSet.elements (selectedApps (view (run history (init p))))) ∧
  Forall NoDup (pushes (trace (run history (init p)))) ∧
  Forall NoDup (announced (trace (run history (init p)))).
Proof.
  pose (P := λ s : Sys,
    NoDup (selectedApps (view s)) ∧
    (∀ c pk, awaiting s !! c = Some (KDebounced pk) → NoDup pk) ∧
    Forall NoDup (pushes (trace s)) ∧
    Forall NoDup (announced (trace s))).
  assert (P (run history (init p))) as (Hsel & _ & Hpush & Hann); [|done].
  apply reachable_ind; subst P; simpl.
  - split_and!; [apply NoDup_nil_2 | | constructor | constructor].
    intros c pk Hc. by rewrite lookup_empty in Hc.
  - intros i s s' _ (Hsel & Haw & Hpush & Hann) Ht.
    destruct Ht as [_ -> | _ -> | value _ -> | q _ -> | ms _ ->
                   | ms h due _ _ _ -> | c r _ Hc -> | c pk r _ Hc ->]; simpl.
    + done.
    + split_and!.
      * apply JsSetFacts.NoDup_from_iter.
      * intros c pk Hc. apply lookup_insert_Some in Hc as [[_ ?]|[_ Hc]]; [done|].
        by apply (Haw c).
      * rewrite pushes_app. simpl. by rewrite app_nil_r.
      * rewrite announced_app. simpl. by rewrite app_nil_r.
    + done.
    + split_and!.
      * apply NoDup_toggled.
      * done.
      * by rewrite pushes_app, pushes_rearm, app_nil_r.
      * by rewrite announced_app, announced_rearm, app_nil_r.
    + done.
    + split_and!.
      * done.
      * intros c pk Hc. apply lookup_insert_Some in Hc as [[_ Hk]|[_ Hc]].
        -- by injection Hk as <-.
        -- by apply (Haw c).
      * rewrite pushes_app. apply Forall_app. split; [done|]. simpl.
        by repeat constructor.
      * rewrite announced_app. simpl. by rewrite app_nil_r.
    + split_and!.
      * done.
      * intros c' pk Hc'. apply lookup_delete_Some in Hc' as [_ Hc']. by apply (Haw c').
      * by rewrite pushes_app, pushes_caught, app_nil_r.
      * by rewrite announced_app, announced_caught, app_nil_r.
    + split_and!.
      * done.
      * intros c' pk' Hc'. apply lookup_delete_Some in Hc' as [_ Hc'].
        by apply (Haw c').
      * rewrite !pushes_app, pushes_caught. simpl. by rewrite !app_nil_r.
      * rewrite !announced_app, announced_caught. simpl.
        apply Forall_app. split; [done|]. constructor; [|constructor].
        by apply (Haw c).
Qed.

(** X2.  In every reachable state each package list pushed so far has
    either been announced by exactly one [AllowedAppsChanged] event or
    belongs to exactly one push that has not settled yet: the pushes are
    the announcements together with the pushes in flight.  So the component
    never announces a list it did not push, and never announces a push
    twice. *)
Theorem pushes_are_announced_or_in_flight (p : Props) (history : list Input) :
  pushes (trace (run history (init p))) ≡ₚ
  announced (trace (run history (init p))) ++ flights (awaiting (run history (init p))).
Proof.
  pose (P := λ s : Sys,
    (∀ c k, awaiting s !! c = Some k → (c < next_call s)%N) ∧
    pushes (trace s) ≡ₚ announced (trace s) ++ flights (awaiting s)).
  assert (P (run history (init p))) as [_ Hperm]; [|done].
  apply reachable_ind; subst P; simpl.
  - split; [|done]. intros c k Hc. by rewrite lookup_empty in Hc.
  - intros i s s' _ (Hfresh & Hperm) Ht.
    assert (awaiting s !! next_call s = None) as Hnew.
    { destruct (awaiting s !! next_call s) as [k|] eqn:Hk; [|done].
      apply Hfresh in Hk. lia. }
    destruct Ht as [_ -> | _ -> | value _ -> | q _ -> | ms _ ->
                   | ms h due _ _ _ -> | c r _ Hc -> | c pk r _ Hc ->]; simpl.
    + done.
    + split.
      * intros c k Hc. apply lookup_insert_Some in Hc as [[<- _]|[_ Hc]]; [lia|].
        apply Hfresh in Hc. lia.
      * rewrite pushes_app, announced_app. simpl. rewrite !app_nil_r.
        unfold flights. rewrite map_to_list_insert by done. simpl. done.
    + done.
    + split; [done|].
      by rewrite pushes_app, announced_app, pushes_rearm, announced_rearm, !app_nil_r.
    + done.
    + split.
      * intros c k Hc. apply lookup_insert_Some in Hc as [[<- _]|[_ Hc]]; [lia|].
        apply Hfresh in Hc. lia.
      * rewrite pushes_app, announced_app. simpl. rewrite app_nil_r.
        unfold flights. rewrite map_to_list_insert by done. simpl.
        rewrite Hperm. unfold flights.
        rewrite Permutation_app_comm. simpl. apply Permutation_middle.
    + split.
      * intros c' k Hc'. apply lookup_delete_Some in Hc' as [_ Hc']. by apply Hfresh in Hc'.
      * rewrite pushes_app, announced_app, pushes_caught, announced_caught, !app_nil_r.
        rewrite Hperm. f_equiv. unfold flights.
        by rewrite <- (map_to_list_delete (awaiting s) c KConnected Hc).
    + split.
      * intros c' k Hc'. apply lookup_delete_Some in Hc' as [_ Hc']. by apply Hfresh in Hc'.
      * rewrite !pushes_app, !announced_app, pushes_caught, announced_caught. simpl.
        rewrite !app_nil_r. rewrite Hperm. unfold flights.
        rewrite <- (map_to_list_delete (awaiting s) c (KDebounced pk) Hc). simpl.
        by rewrite <- app_assoc.
Qed.

End Invariants.

Section Effects.
Context `{Builtins}.

Lemma expected_rearm (s : Sys) : Forall expected_effect (rearm_effects s).
Proof.
  unfold rearm_effects. destruct (truthy_handle _); by repeat constructor.
Qed.

(** X3.  Whatever the inputs, the component has no other effects than
    these: bridge calls ['getInstalledApps'] without arguments and
    ['setAllowedApps'] with one package list, [console.error] with one of
    its two messages, [AllowedAppsChanged] events that bubble and are
    composed, timers of 500 ms and their cancellation.  In particular no
    handler ever ends in a rejection that nobody handles. *)
Theorem effects_are_the_expected_ones (p : Props) (history : list Input) :
  Forall expected_effect (trace (run history (init p))).
Proof.
  apply reachable_ind; [constructor|].
  intros i s s' _ Hs Ht.
  destruct Ht as [_ -> | _ -> | value _ -> | q _ -> | ms _ ->
                 | ms h due _ _ _ -> | c r _ Hc -> | c pk r _ Hc ->]; simpl;
    try done; rewrite ?Forall_app; split_and?; try done;
    try apply expected_rearm;
    try (destruct (getInstalledApps_resume r));
    try (destruct r);
    repeat (apply Forall_cons_2 || apply Forall_nil_2); simpl;
    try done; try (by left); try (by right); try (right; by eauto).
Qed.

(** X4.  The component pushes at most once per click: in every reachable
    state the number of [setAllowedApps] calls made so far, plus one if the
    debounce timer is armed, is at most the number of clicks.  Connecting,
    searching, waiting and bridge answers alone never cause a push. *)
Theorem pushes_bounded_by_clicks (p : Props) (history : list Input) :
  (length (pushes (trace (run history (init p)))) +
   length (timers (run history (init p))) <= clicks history)%nat.
Proof.
  assert (∀ (s : Sys) (n : nat),
    timer_inv s →
    (length (pushes (trace s)) + length (timers s) <= n)%nat →
    (length (pushes (trace (run history s))) + length (timers (run history s))
     <= n + clicks history)%nat) as Hrun.
  { induction history as [|i history IH]; intros s n Hinv Hn.
    - simpl. unfold clicks. simpl. lia.
    - simpl.
      assert (clicks (i :: history) = ((if is_click i then 1 else 0) + clicks history)%nat)
        as -> by (unfold clicks; simpl; by destruct (is_click i)).
      rewrite Nat.add_assoc.
      apply IH; [by apply timer_inv_step|].
      pose proof (timer_inv_step i s Hinv) as [_ Hshape].
      destruct (step_trans i s Hinv)
        as [[(?&?&->)|(?&?&->)] Heq | -> Heq | value -> Heq | q -> Heq | ms -> Heq
           | ms h due -> Hts _ Heq | c r -> Hc Heq | c pk r -> Hc Heq];
        rewrite Heq; simpl.
      + lia.
      + lia.
      + rewrite pushes_app. simpl. rewrite app_nil_r. lia.
      + lia.
      + rewrite pushes_app, pushes_rearm, app_nil_r.
        destruct Hinv as [_ Ht]. destruct (timers s) as [|t [|t' ts]]; simpl; try done; lia.
      + lia.
      + rewrite pushes_app, length_app, Hts in *. simpl in *. lia.
      + rewrite pushes_app, pushes_caught, app_nil_r. lia.
      + rewrite !pushes_app, pushes_caught. simpl. rewrite !app_nil_r. lia. }
  apply (Hrun (init p) 0%nat); [apply timer_inv_init | simpl; lia].
Qed.

(** X5.  Every connection asks the native side for the app list exactly
    once and nothing else does: the number of ['getInstalledApps'] calls is
    the number of times the element was attached. *)
Theorem one_load_per_connection (p : Props) (history : list Input) :
  length (loads (trace (run history (init p)))) = connections history.
Proof.
  assert (∀ (s : Sys),
    timer_inv s →
    length (loads (trace (run history s))) =
    (length (loads (trace s)) + connections history)%nat) as Hrun.
  { induction history as [|i history IH]; intros s Hinv.
    - simpl. unfold connections. simpl. lia.
    - simpl. rewrite IH by (by apply timer_inv_step).
      assert (connections (i :: history) =
              ((if is_connect i then 1 else 0) + connections history)%nat)
        as -> by (unfold connections; simpl; by destruct (is_connect i)).
      rewrite Nat.add_assoc. f_equal.
      assert (∀ t u, loads (t ++ u) = loads t ++ loads u) as Happ
        by (intros; apply omap_app).
      destruct (step_trans i s Hinv)
        as [[(?&?&->)|(?&?&->)] Heq | -> Heq | value -> Heq | q -> Heq | ms -> Heq
           | ms h due -> Hts _ Heq | c r -> Hc Heq | c pk r -> Hc Heq];
        rewrite Heq; simpl; rewrite ?Happ, ?length_app; simpl; try lia.
      + unfold rearm_effects. destruct (truthy_handle _); simpl; lia.
      + destruct (getInstalledApps_resume r); simpl; lia.
      + destruct r; simpl; lia. }
  rewrite (Hrun (init p)) by apply timer_inv_init. simpl. lia.
Qed.

(** X6.  In every reachable state at most one debounce timer is armed; if
    one is, the component holds its handle, and it comes due later than
    now but no later than 500 ms from now. *)
Theorem at_most_one_timer_armed (p : Props) (history : list Input) :
  let s := run history (init p) in
  timers s = [] ∨
  ∃ h due : N,
    timers s = [(h, due)] ∧
    applyDebounceTimer (view s) = Some h ∧
    (clock s < due <= clock s + 500)%N.
Proof.
  intros s. subst s.
  pose (P := λ s : Sys, Forall (λ t, (t.2 <= clock s + 500)%N) (timers s)).
  assert (timer_inv (run history (init p))) as [_ Hinv]
    by apply timer_inv_run, timer_inv_init.
  assert (P (run history (init p))) as Hdue.
  { apply reachable_ind; subst P; simpl; [constructor|].
    intros i s s' _ Hs Ht.
    destruct Ht as [_ -> | _ -> | value _ -> | q _ -> | ms _ ->
                   | ms h due _ _ _ -> | c r _ Hc -> | c pk r _ Hc ->]; simpl;
      try done.
    - repeat constructor. simpl. lia.
    - eapply Forall_impl; [exact Hs|]. simpl. intros t Ht. lia. }
  subst P. simpl in Hdue.
  destruct (timers (run history (init p))) as [|[h due] [|t ts]]; try done.
  - by left.
  - right. exists h, due. destruct Hinv as (Hh & _ & Hlt).
    apply Forall_cons in Hdue as [Hle _]. simpl in Hle.
    split_and!; try done; lia.
Qed.

End Effects.

(** ** What changes the view *)

(** X7.  Once the loading flag is false it stays false, whatever happens
    next: no handler sets it back, not even a new connection, so the list
    page is never replaced by the loading page again. *)
Theorem loading_never_returns `{Builtins} (inputs : list Input) (s : Sys) :
  loading (view s) = false →
  loading (view (run inputs s)) = false ∧
  render (props (run inputs s)) (view (run inputs s)) ≠ LoadingPage.
Proof.
  intros Hl.
  assert (loading (view (run inputs s)) = false) as Hrun.
  { revert s Hl. induction inputs as [|i inputs IH]; intros s Hl; [done|].
    simpl. apply IH. rewrite view_step.
    destruct i as [| value | q | ms | c r | c r]; simpl; try done.
    by destruct (awaiting s !! c) as [[|pk]|]. }
  split; [done|]. unfold render. by rewrite Hrun.
Qed.

Lemma loading_never_returns_witness :
  loading (view Demo.connected) = false ∧
  loading (view (@run Demo.engine
                   [Connect; Click "com.mail"; LoadSettles 1 (Rejected (NativeError "gone"))]
                   Demo.connected)) = false.
Proof.
  split; [reflexivity|].
  exact (proj1 (@loading_never_returns Demo.engine
                  [Connect; Click "com.mail"; LoadSettles 1 (Rejected (NativeError "gone"))]
                  Demo.connected eq_refl)).
Defined.

(** X8.  Only an answer to the request for the app list changes the app
    list or the loading flag: clicks, searches, connections, waiting and
    answers to pushes leave both as they are.  So a freshly created element
    shows the loading page until such an answer arrives. *)
Theorem only_a_load_answer_changes_the_app_list `{Builtins}
    (p : Props) (inputs : list Input) (s : Sys) :
  Forall (λ i, is_load_answer i = false) inputs →
  apps (view (run inputs s)) = apps (view s) ∧
  loading (view (run inputs s)) = loading (view s) ∧
  render p (view (run inputs (init p))) = LoadingPage.
Proof.
  intros Hall.
  assert (∀ s, apps (view (run inputs s)) = apps (view s) ∧
               loading (view (run inputs s)) = loading (view s)) as Hrun.
  { clear s. induction inputs as [|i inputs IH]; intros s; [done|].
    apply Forall_cons in Hall as [Hi Hall]. simpl.
    destruct (IH Hall (step i s)) as [-> ->]. rewrite view_step.
    destruct i as [| value | q | ms | c r | c r]; simpl; done. }
  split_and!; try apply Hrun.
  unfold render. destruct (Hrun (init p)) as [_ ->]. done.
Qed.

Lemma only_a_load_answer_changes_the_app_list_witness :
  let inputs := [Connect; Click "com.mail"; Elapse 700; SearchInput "m";
                 PushSettles 1 (Fulfilled tt)] in
  Forall (λ i, is_load_answer i = false) inputs ∧
  @render Demo.engine Demo.element (view (@run Demo.engine inputs (init Demo.element))) =
    LoadingPage.
Proof.
  intros inputs.
  assert (Forall (λ i, is_load_answer i = false) inputs) as Hall
    by (repeat constructor).
  split; [exact Hall|].
  exact (proj2 (proj2 (@only_a_load_answer_changes_the_app_list Demo.engine
                         Demo.element inputs (init Demo.element) Hall))).
Defined.

(** X9.  Only a click or a connection changes the selection: searching,
    waiting, the arrival of the app list and the settling of a push leave
    it as it is. *)
Theorem only_clicks_and_connections_change_the_selection `{Builtins}
    (inputs : list Input) (s : Sys) :
  Forall (λ i, changes_selection i = false) inputs →
  selectedApps (view (run inputs s)) = selectedApps (view s).
Proof.
  revert s. induction inputs as [|i inputs IH]; intros s Hall; [done|].
  apply Forall_cons in Hall as [Hi Hall]. simpl.
  rewrite (IH _ Hall), view_step.
  destruct i as [| value | q | ms | c r | c r]; simpl; try done.
  by destruct (awaiting s !! c) as [[|pk]|].
Qed.

Lemma only_clicks_and_connections_change_the_selection_witness :
  let inputs := [SearchInput "m"; Elapse 700;
                 LoadSettles 0 (Fulfilled Demo.installed_text)] in
  let s := @run Demo.engine [Connect; Click "com.mail"] (init Demo.element) in
  Forall (λ i, changes_selection i = false) inputs ∧
  selectedApps (view (@run Demo.engine inputs s)) = ["org.maps"; "com.mail"].
Proof.
  intros inputs s.
  assert (Forall (λ i, changes_selection i = false) inputs) as Hall
    by (repeat constructor).
  split; [exact Hall|].
  exact (@only_clicks_and_connections_change_the_selection Demo.engine inputs s Hall).
Defined.

(** ** The selection *)

Lemma keep_first_spec (l : list string) (acc : JsSet.t) :
  NoDup acc →
  foldl (λ s x, JsSet.add x s) acc l = acc ++ filter (λ y, y ∉ acc) (keep_first l).
Proof.
  revert acc. induction l as [|x l IH]; intros acc Hacc; simpl.
  - by rewrite app_nil_r.
  - rewrite IH by (by apply JsSetFacts.NoDup_add). unfold JsSet.add.
    rewrite filter_cons. destruct (JsSet.has x acc) eqn:Hx.
    + apply JsSetFacts.has_true in Hx. case_decide as Hd; [done|].
      f_equal. rewrite list_filter_filter. apply list_filter_iff.
      intros y. split; [|tauto]. intros Hy. split; [done|]. by intros ->.
    + apply JsSetFacts.has_false in Hx. case_decide as Hd; [|done].
      rewrite <- app_assoc. simpl. do 2 f_equal.
      rewrite list_filter_filter. apply list_filter_iff.
      intros y. rewrite elem_of_app, list_elem_of_singleton. tauto.
Qed.

Lemma from_iter_keep_first (l : list string) : JsSet.from_iter l = keep_first l.
Proof.
  unfold JsSet.from_iter, JsSet.empty. rewrite keep_first_spec by apply NoDup_nil_2.
  simpl. induction (keep_first l) as [|x k IH]; [done|].
  rewrite filter_cons, decide_True by apply not_elem_of_nil. by rewrite IH.
Qed.

Lemma toggled_nodup (p : string) (selected : JsSet.t) :
  NoDup selected →
  toggled p selected =
  if JsSet.has p selected then filter (λ y, y ≠ p) selected else selected ++ [p].
Proof.
  intros Hnd. unfold toggled. rewrite JsSetFacts.from_iter_copy by done.
  unfold JsSet.delete, JsSet.add. by destruct (JsSet.has p selected).
Qed.

Lemma reachable_selection_nodup `{Builtins} (p : Props) (history : list Input) :
  NoDup (selectedApps (view (run history (init p)))).
Proof.
  apply (reachable_ind (λ s, NoDup (selectedApps (view s)))); [apply NoDup_nil_2|].
  intros i s s' _ Hs Ht.
  destruct Ht as [_ -> | _ -> | value _ -> | q _ -> | ms _ ->
                 | ms h due _ _ _ -> | c r _ Hc -> | c pk r _ Hc ->]; simpl;
    try done.
  - apply JsSetFacts.NoDup_from_iter.
  - apply NoDup_toggled.
Qed.

Lemma length_filter_remove (p : string) (l : list string) :
  NoDup l → p ∈ l → S (length (filter (λ y, y ≠ p) l)) = length l.
Proof.
  induction l as [|x l IH]; intros Hnd Hin; [by apply elem_of_nil in Hin|].
  apply NoDup_cons in Hnd as [Hx Hnd]. rewrite filter_cons.
  destruct (decide (x = p)) as [->|Hne].
  - rewrite decide_False by tauto. simpl. f_equal.
    f_equal. clear IH Hin Hnd. induction l as [|y l IH]; [done|].
    apply not_elem_of_cons in Hx as [Hy Hx]. rewrite filter_cons.
    rewrite decide_True by done. by rewrite IH.
  - rewrite decide_True by done. simpl. f_equal. apply IH; [done|].
    apply elem_of_cons in Hin as [->|]; done.
Qed.

(** X10.  On connection the selection becomes the initial packages, each
    once, in the order of their first occurrence, whatever was selected
    before. *)
Theorem connection_selects_initial_packages (s : Sys) (q : string) :
  let selected := selectedApps (view (exec connectedCallback s)) in
  JsSet.elements selected = keep_first (initialSelectedApps (props s)) ∧
  JsSet.has q selected = bool_decide (q ∈ initialSelectedApps (props s)).
Proof.
  intros selected. subst selected. rewrite exec_connectedCallback. simpl. split.
  - apply from_iter_keep_first.
  - unfold JsSet.has. apply bool_decide_ext. apply JsSetFacts.elem_of_from_iter.
Qed.

(** X11.  In every reachable state a click on a package that is not
    selected appends it after the selected ones, and a click on a selected
    package removes it and keeps the others in their order; the number of
    selected packages changes by exactly one. *)
Theorem click_appends_or_removes `{Builtins}
    (p : Props) (history : list Input) (q : string) :
  let selected := selectedApps (view (run history (init p))) in
  let selected' := selectedApps (view (step (Click q) (run history (init p)))) in
  JsSet.elements selected' =
    (if JsSet.has q selected
     then filter (λ y, y ≠ q) (JsSet.elements selected)
     else JsSet.elements selected ++ [q]) ∧
  (if JsSet.has q selected
   then S (JsSet.size selected') = JsSet.size selected
   else JsSet.size selected' = S (JsSet.size selected)).
Proof.
  intros selected selected'.
  pose proof (reachable_selection_nodup p history) as Hnd. fold selected in Hnd.
  assert (selected' = toggled q selected) as ->.
  { subst selected'. by rewrite view_step. }
  rewrite (toggled_nodup q selected Hnd). unfold JsSet.elements, JsSet.size.
  destruct (JsSet.has q selected) eqn:Hq; split; try done.
  - apply JsSetFacts.has_true in Hq. by apply length_filter_remove.
  - rewrite length_app. simpl. lia.
Qed.

Lemma selection_after_clicks `{Builtins} (inputs : list Input) (s : Sys) :
  Forall (λ i, is_connect i = false) inputs →
  selectedApps (view (run inputs s)) = toggled_all (clicked inputs) (selectedApps (view s)).
Proof.
  revert s. induction inputs as [|i inputs IH]; intros s Hall; [done|].
  apply Forall_cons in Hall as [Hi Hall]. simpl.
  rewrite (IH _ Hall), view_step.
  destruct i as [| value | q | ms | c r | c r]; simpl; try done.
  by destruct (awaiting s !! c) as [[|pk]|].
Qed.

Lemma has_toggled_all (q : string) (ps : list string) (selected : JsSet.t) :
  JsSet.has q (toggled_all ps selected) =
  xorb (JsSet.has q selected) (Nat.odd (occurrences q ps)).
Proof.
  revert selected. induction ps as [|p ps IH]; intros selected.
  - simpl. by rewrite xorb_false_r.
  - change (toggled_all (p :: ps) selected) with (toggled_all ps (toggled p selected)).
    rewrite IH, has_toggled. unfold occurrences. rewrite filter_cons.
    destruct (decide (p = q)) as [->|Hne].
    + rewrite bool_decide_eq_true_2 by done. simpl length.
      rewrite Nat.odd_succ, <- Nat.negb_odd.
      by destruct (JsSet.has q selected), (Nat.odd _).
    + rewrite bool_decide_eq_false_2 by (by intros ->). done.
Qed.

(** X12.  As long as the element is not attached again, a package is
    selected exactly when it was selected at the start and has been clicked
    an even number of times, or was not selected and has been clicked an odd
    number of times; nothing else that happens in between matters. *)
Theorem selection_follows_click_parity `{Builtins}
    (inputs : list Input) (s : Sys) (q : string) :
  Forall (λ i, is_connect i = false) inputs →
  JsSet.has q (selectedApps (view (run inputs s))) =
  xorb (JsSet.has q (selectedApps (view s))) (Nat.odd (occurrences q (clicked inputs))).
Proof.
  intros Hall. rewrite (selection_after_clicks inputs s Hall). apply has_toggled_all.
Qed.

Lemma selection_follows_click_parity_witness :
  let inputs := [Click "com.mail"; Elapse 600; SearchInput "m"; Click "org.maps";
                 PushSettles 1 (Fulfilled tt); Click "com.mail"; Click "com.mail"] in
  Forall (λ i, is_connect i = false) inputs ∧
  JsSet.has "com.mail" (selectedApps (view (@run Demo.engine inputs Demo.connected))) =
    true.
Proof.
  intros inputs.
  assert (Forall (λ i, is_connect i = false) inputs) as Hall by (repeat constructor).
  split; [exact Hall|].
  exact (@selection_follows_click_parity Demo.engine inputs Demo.connected "com.mail" Hall).
Defined.

(** ** The page *)

Lemma filteredApps_ignores_selection `{Builtins} (v : View) (sel : JsSet.t) (h : option N) :
  filteredApps (set_applyDebounceTimer h (set_selectedApps sel v)) = filteredApps v.
Proof. reflexivity. Qed.

(** X13.  On the list page a click on a package flips the checkbox of the
    items with that package name and leaves every other item, and the
    items listed and their order, as they were. *)
Theorem click_flips_one_checkbox `{Builtins} (s : Sys) (q : string) :
  loading (view s) = false →
  rendered_items (render (props (step (Click q) s)) (view (step (Click q) s))) =
  map (λ it, if bool_decide (packageName (item_app it) = q) then flipped it else it)
      (rendered_items (render (props s) (view s))).
Proof.
  intros Hl. rewrite view_step, props_step. unfold render. simpl.
  rewrite Hl. simpl. rewrite filteredApps_ignores_selection, map_map.
  apply map_ext. intros app. simpl. rewrite has_toggled.
  case_bool_decide as Hq; [subst q|]; reflexivity.
Qed.

Lemma click_flips_one_checkbox_witness :
  loading (view Demo.connected) = false ∧
  rendered_items (@render Demo.engine Demo.element
                    (view (@step Demo.engine (Click "com.mail") Demo.connected))) =
  [ {| item_app := Demo.browser; item_checked := false |};
    {| item_app := Demo.mail; item_checked := true |};
    {| item_app := Demo.maps; item_checked := true |} ].
Proof.
  split; [reflexivity|].
  exact (@click_flips_one_checkbox Demo.engine Demo.connected "com.mail" eq_refl).
Defined.

Lemma string_app_nil_r (s : string) : s +:+ EmptyString = s.
Proof.
  induction s as [|c s IH]; [done|].
  change (String c (s +:+ EmptyString) = String c s). by rewrite IH.
Qed.

Lemma includes_self (s : string) : includes s s = true.
Proof.
  apply includes_spec. exists EmptyString, EmptyString.
  change (s = s +:+ EmptyString). by rewrite string_app_nil_r.
Qed.

(** X14.  On the list page, a search text equal to the label or to the
    package name of an installed app always finds that app, however the
    engine lower-cases. *)
Theorem search_by_own_name_finds_the_app `{Builtins}
    (p : Props) (v : View) (app : AppInfo) :
  loading v = false →
  app ∈ apps v →
  searchQuery v = label app ∨ searchQuery v = packageName app →
  ∃ shown : list AppInfo, rendered_apps (render p v) = Some shown ∧ app ∈ shown.
Proof.
  intros Hl Hin Hq. exists (filteredApps v). split; [by apply rendered_apps_render|].
  unfold filteredApps. destruct (truthy_string _); [|done].
  apply list_elem_of_In, filter_In. split; [by apply list_elem_of_In|].
  unfold matches_query. apply orb_true_iff.
  destruct Hq as [-> | ->]; [left | right]; apply includes_self.
Qed.

Lemma search_by_own_name_finds_the_app_witness :
  let v := set_searchQuery "com.mail" (view Demo.connected) in
  loading v = false ∧
  Demo.mail ∈ apps v ∧
  (searchQuery v = label Demo.mail ∨ searchQuery v = packageName Demo.mail) ∧
  ∃ shown : list AppInfo,
    rendered_apps (@render Demo.engine Demo.element v) = Some shown ∧ Demo.mail ∈ shown.
Proof.
  intros v.
  assert (Demo.mail ∈ apps v) as Hin by (right; left).
  assert (searchQuery v = label Demo.mail ∨ searchQuery v = packageName Demo.mail) as Hq
    by (right; reflexivity).
  split_and!; [reflexivity | exact Hin | exact Hq |].
  exact (@search_by_own_name_finds_the_app Demo.engine Demo.element v Demo.mail
           eq_refl Hin Hq).
Defined.

(** ** Connection, again *)

Lemma props_run `{Builtins} (inputs : list Input) (s : Sys) :
  props (run inputs s) = props s.
Proof.
  revert s. induction inputs as [|i inputs IH]; intros s; [done|].
  simpl. by rewrite IH, props_step.
Qed.

(** X15.  Attaching the element again while a debounce timer is armed
    does not disarm the timer but resets the selection: when the timer
    fires, what is pushed is the initial selection, not the one the click
    produced. *)
Theorem reconnection_resets_pending_push `{Builtins}
    (p : Props) (history : list Input) (q : string) (ms : N) :
  (500 <= ms)%N →
  let s0 := run history (init p) in
  let s := run [Click q; Connect; Elapse ms] s0 in
  pushes (trace s) = pushes (trace s0) ++ [keep_first (initialSelectedApps p)] ∧
  JsSet.elements (selectedApps (view s)) = keep_first (initialSelectedApps p).
Proof.
  intros Hms s0 s.
  assert (timer_inv s0) as Hs0 by apply timer_inv_run, timer_inv_init.
  assert (props s0 = p) as Hp by apply props_run.
  destruct (click_arms q s0 Hs0) as ([_ Ht1] & _ & (Hpush1 & _)).
  pose proof (props_step (Click q) s0) as Hp1.
  set (s1 := step (Click q) s0) in *.
  set (s2 := step Connect s1).
  assert (timers s2 = [((next_timer s1 - 1)%N, (clock s2 + 500)%N)]) as Ht2
    by exact Ht1.
  assert (s = elapse ms s2) as -> by reflexivity.
  rewrite (elapse_fires ms _ _ s2 Ht2) by lia.
  rewrite exec_debounce_callback. simpl.
  rewrite Hp1, Hp, from_iter_keep_first. split; [|done].
  rewrite !pushes_app. simpl. rewrite app_nil_r. by rewrite Hpush1.
Qed.

Lemma reconnection_resets_pending_push_witness :
  (500 <= 500)%N ∧
  pushes (trace (@run Demo.engine [Click "com.mail"; Connect; Elapse 500] Demo.connected)) =
    [["org.maps"]].
Proof.
  split; [reflexivity|].
  exact (proj1 (@reconnection_resets_pending_push Demo.engine Demo.element
                  [Connect; LoadSettles 0 (Fulfilled Demo.installed_text)]
                  "com.mail" 500%N (reflexivity _))).
Defined.

(** ** The order of the app list *)

Section Stability.
Context {A : Type} (cmp : A → A → Z).

Hypothesis cmp_trans : ∀ a b c, cmp a b <= 0 → cmp b c <= 0 → cmp a c <= 0.

Variable a : A.




Lemma sort_insert_least (x : A) (l : list A) :
  Forall (λ y, cmp x y <= 0) l → sort_insert cmp x l = x :: l.
Proof.
  intros Hl. destruct l as [|y l]; [done|]. simpl.
  apply Forall_cons in Hl as [Hy _]. apply Z.leb_le in Hy. by rewrite Hy.
Qed.

Lemma array_sort_sorted_input (l : list A) :
  StronglySorted (λ x y, cmp x y <= 0) l → array_sort cmp l = l.
Proof.
  induction l as [|x l IH]; intros Hl; [done|]. simpl.
  apply StronglySorted_cons in Hl as [Hx Hl].
  rewrite IH by done. by apply sort_insert_least.
Qed.

End Stability.

#[global] Instance same_label_dec `{Builtins} (a b : AppInfo) :
  Decision (same_label a b).
Proof. unfold same_label, label_le. apply _. Defined.



(** X17.  If the bridge returns the apps already in ascending order of
    their labels, the app list is exactly the list the bridge returned. *)
Theorem connectedCallback_keeps_sorted_answer `{Builtins}
    (s : Sys) (c : N) (text : string) (loaded : list AppInfo) :
  awaiting s !! c = Some KConnected →
  JSON_parse text = Fulfilled loaded →
  StronglySorted label_le loaded →
  apps (view (step (LoadSettles c (Fulfilled text)) s)) = loaded.
Proof.
  intros Hc Hparse Hsorted. rewrite (settle_load c _ s Hc). simpl.
  unfold loaded_apps. simpl. rewrite Hparse.
  by apply (array_sort_sorted_input by_label).
Qed.

Lemma connectedCallback_keeps_sorted_answer_witness :
  awaiting (@step ordered_engine Connect (init Demo.element)) !! 0%N = Some KConnected ∧
  @JSON_parse ordered_engine "apps" = Fulfilled [Demo.browser; Demo.mail; Demo.maps] ∧
  StronglySorted (@label_le ordered_engine) [Demo.browser; Demo.mail; Demo.maps] ∧
  apps (view (@run ordered_engine [Connect; LoadSettles 0 (Fulfilled "apps")]
                (init Demo.element))) =
    [Demo.browser; Demo.mail; Demo.maps].
Proof.
  assert (StronglySorted (@label_le ordered_engine) [Demo.browser; Demo.mail; Demo.maps])
    as Hsorted.
  { repeat (apply SSorted_cons || apply SSorted_nil || apply Forall_cons_2
            || apply Forall_nil_2); unfold label_le; simpl; done. }
  split_and!; [reflexivity | reflexivity | exact Hsorted |].
  exact (@connectedCallback_keeps_sorted_answer ordered_engine
           (@step ordered_engine Connect (init Demo.element)) 0%N "apps"
           [Demo.browser; Demo.mail; Demo.maps] eq_refl eq_refl Hsorted).
Defined.

(** ** Deselecting everything *)

Lemma filter_only_member (q : string) : filter (λ y : string, y ≠ q) [q] = [].
Proof.
  rewrite filter_cons, filter_nil. rewrite decide_False; [done|].
  intros Hn. by apply Hn.
Qed.

(** X18.  When the only selected package is clicked and 500 ms pass, the
    empty list is pushed: an empty selection is sent to the native side
    like any other. *)
Theorem deselecting_the_last_package_pushes_empty `{Builtins}
    (p : Props) (history : list Input) (q : string) (ms : N) :
  JsSet.elements (selectedApps (view (run history (init p)))) = [q] →
  (500 <= ms)%N →
  pushes (trace (run [Click q; Elapse ms] (run history (init p)))) =
  pushes (trace (run history (init p))) ++ [[]].
Proof.
  intros Hsel Hms. set (s0 := run history (init p)) in *.
  assert (timer_inv s0) as Hs0 by apply timer_inv_run, timer_inv_init.
  destruct (click_arms q s0 Hs0) as (Harm & Hsel1 & (Hpush1 & _)).
  change (run [Click q; Elapse ms] s0) with (step (Elapse ms) (step (Click q) s0)).
  rewrite (armed_fires ms _ Harm Hms), exec_debounce_callback.
  remember (step (Click q) s0) as s1 eqn:Hs1. simpl.
  rewrite pushes_app, Hpush1. f_equal. simpl.
  rewrite Hsel1. unfold JsSet.elements in *. rewrite Hsel.
  assert (toggled q [q] = []) as ->; [|done].
  rewrite (toggled_nodup q [q]) by apply NoDup_singleton.
  assert (JsSet.has q [q] = true) as -> by (apply JsSetFacts.has_true; left).
  apply filter_only_member.
Qed.

Lemma deselecting_the_last_package_pushes_empty_witness :
  JsSet.elements (selectedApps (view Demo.connected)) = ["org.maps"] ∧
  (500 <= 800)%N ∧
  pushes (trace (@run Demo.engine [Click "org.maps"; Elapse 800] Demo.connected)) = [[]].
Proof.
  assert (500 <= 800)%N as Hms by (vm_compute; discriminate).
  split_and!; [reflexivity | exact Hms |].
  exact (@deselecting_the_last_package_pushes_empty Demo.engine Demo.element
           [Connect; LoadSettles 0 (Fulfilled Demo.installed_text)] "org.maps" 800%N
           eq_refl Hms).
Defined.
